(** * Barge-in voice client: detector, interrupt coordinator, playback queue

  Shallow embedding of [src/02-voice/src/app/page.tsx] (with the constants
  of [src/02-voice/src/config/realtime.ts]) and the properties of its
  barge-in detector, its [interrupt] routine, its playback queue and its
  PCM16 sample codec.

  Conventions of the embedding:
  - a JavaScript number is an IEEE 754 binary64 value, represented by
    [spec_float] with the operations of [SpecFloat] at precision 53;
    storing into a [Float32Array] rounds to binary32;
  - every [useRef] cell and every [useState] cell read by the handlers is a
    field of one [State] record; handlers are state transformers;
  - what a handler does to the outside (socket sends, audio sources started
    or stopped, console output that marks a decision) is appended to the
    [trace] field, oldest first;
  - an [await] splits an [async] function into the segments that run
    without interruption; each segment is a transformer of its own and the
    event loop chooses when the next one runs. *)

From Stdlib Require Import ZArith List String Ascii Bool Lia.
From Stdlib Require Import Floats.SpecFloat.
From Stdlib Require Import Sorted.
Import ListNotations.

Local Open Scope Z_scope.

(** ** JavaScript numbers *)

Module JSNumber.

Definition prec : Z := 53.
Definition emax : Z := 1024.

Definition number := spec_float.

Definition NaN : number := S754_nan.

(** An integer literal, or an integer read from a typed array. *)
Definition ofZ (z : Z) : number := binary_normalize prec emax z 0 false.

Definition add : number -> number -> number := SFadd prec emax.
Definition mul : number -> number -> number := SFmul prec emax.
Definition div : number -> number -> number := SFdiv prec emax.
Definition abs : number -> number := SFabs.

(** [x < y] and [x > y]; both are false when an operand is NaN. *)
Definition ltb (x y : number) : bool := SFltb x y.
Definition gtb (x y : number) : bool := SFltb y x.

Definition is_nan (x : number) : bool :=
  match x with S754_nan => true | _ => false end.

(** [Math.min(a, b)]: NaN if an operand is NaN, and -0 below +0. *)
Definition math_min (a b : number) : number :=
  if is_nan a || is_nan b then NaN
  else match SFcompare a b with
       | Some Lt => a
       | Some Gt => b
       | _ => match a with S754_zero true => a | _ => b end
       end.

(** [Math.max(a, b)]: NaN if an operand is NaN, and +0 above -0. *)
Definition math_max (a b : number) : number :=
  if is_nan a || is_nan b then NaN
  else match SFcompare a b with
       | Some Gt => a
       | Some Lt => b
       | _ => match a with S754_zero false => a | _ => b end
       end.

(** The value kept by a [Float32Array] element: the number rounded to
    binary32 (ties to even), given back in its binary64 representation. *)
Definition fround (x : number) : number :=
  match x with
  | S754_finite s m e =>
      match binary_round 24 128 s m e with
      | S754_finite s' m' e' => binary_round prec emax s' m' e'
      | y => y
      end
  | _ => x
  end.

(** The integer part, rounding toward zero, of a finite number. *)
Definition truncate (x : number) : Z :=
  match x with
  | S754_finite s m e =>
      let mag := Z.shiftl (Zpos m) e in
      if s then - mag else mag
  | _ => 0
  end.

(** ECMAScript [ToInt16]: NaN, the zeros and the infinities give 0; any
    other number is truncated and wrapped modulo 2^16 into
    [-32768, 32767]. *)
Definition ToInt16 (x : number) : Z :=
  match x with
  | S754_finite _ _ _ =>
      let int16bit := (truncate x) mod 65536 in
      if 32768 <=? int16bit then int16bit - 65536 else int16bit
  | _ => 0
  end.

End JSNumber.

(** ** The PCM16 sample codec *)

Module PCM16.
Import JSNumber.

Definition Float32Array := list number.
Definition Uint8Array := list Z.

(** The clamp of [convertToPCM16]:
    [Math.max(-1, Math.min(1, float32Array[i]))]. *)
Definition clamp (x : number) : number :=
  math_max (ofZ (-1)) (math_min (ofZ 1) x).

(** The value handed to [view.setInt16]:
    [s < 0 ? s * 0x8000 : s * 0x7fff]. *)
Definition scale (s : number) : number :=
  if ltb s (ofZ 0) then mul s (ofZ 32768) else mul s (ofZ 32767).

(** The 16-bit integer that [setInt16] stores for one input sample. *)
Definition encodeSample (x : number) : Z := ToInt16 (scale (clamp x)).

(** [view.setInt16(offset, v, true)]: two bytes, low byte first. *)
Definition setInt16_le (v : Z) : list Z :=
  let u := v mod 65536 in [u mod 256; u / 256].

Fixpoint convertToPCM16 (float32Array : Float32Array) : Uint8Array :=
  match float32Array with
  | [] => []
  | x :: rest => setInt16_le (encodeSample x) ++ convertToPCM16 rest
  end.

(** One element of the conversion loop of [playAudioQueue]:
    [float32[i] = pcm16[i] / (pcm16[i] < 0 ? 0x8000 : 0x7fff)],
    the store into the [Float32Array] rounding to binary32. *)
Definition decodeSample (v : Z) : number :=
  fround (div (ofZ v) (ofZ (if v <? 0 then 32768 else 32767))).

Definition toFloat32 (pcm16 : list Z) : Float32Array :=
  map decodeSample pcm16.

End PCM16.

(** ** Base64 text and typed-array views

  [atob] and [btoa] are the browser's own; they are written out here
  after the forgiving-base64 algorithm they implement, because
  [playAudioDelta] branches on the failure of [atob].  A binary string is
  kept as the list of its char codes (0..255).  A payload is a [string] of
  8-bit characters; a character outside that range would make [atob]
  fail just like any other character outside the alphabet. *)

Module Base64.

Definition is_ascii_whitespace (c : ascii) : bool :=
  let n := Z.of_N (N_of_ascii c) in
  (n =? 9) || (n =? 10) || (n =? 12) || (n =? 13) || (n =? 32).

Definition sextet_of_char (c : ascii) : option Z :=
  let n := Z.of_N (N_of_ascii c) in
  if (65 <=? n) && (n <=? 90) then Some (n - 65)
  else if (97 <=? n) && (n <=? 122) then Some (n - 71)
  else if (48 <=? n) && (n <=? 57) then Some (n + 4)
  else if n =? 43 then Some 62
  else if n =? 47 then Some 63
  else None.

Definition char_of_sextet (v : Z) : ascii :=
  let n :=
    if v <? 26 then v + 65
    else if v <? 52 then v + 71
    else if v <? 62 then v - 4
    else if v =? 62 then 43 else 47 in
  ascii_of_N (Z.to_N n).

Definition pad : ascii := ascii_of_N 61.

Fixpoint sextets (cs : list ascii) : option (list Z) :=
  match cs with
  | [] => Some []
  | c :: rest =>
      match sextet_of_char c, sextets rest with
      | Some v, Some vs => Some (v :: vs)
      | _, _ => None
      end
  end.

Fixpoint bytes_of_sextets (l : list Z) : list Z :=
  match l with
  | a :: b :: c :: d :: rest =>
      (a * 4 + b / 16) :: ((b mod 16) * 16 + c / 4) :: ((c mod 4) * 64 + d)
        :: bytes_of_sextets rest
  | [a; b; c] => [a * 4 + b / 16; (b mod 16) * 16 + c / 4]
  | [a; b] => [a * 4 + b / 16]
  | _ => []
  end.

(** Removal of one or two trailing [=], done only when the length is a
    multiple of four. *)
Definition strip_padding (cs : list ascii) : list ascii :=
  if (Z.of_nat (List.length cs)) mod 4 =? 0 then
    match rev cs with
    | p1 :: p2 :: rest =>
        if Ascii.eqb p1 pad then
          if Ascii.eqb p2 pad then rev rest else rev (p2 :: rest)
        else cs
    | _ => cs
    end
  else cs.

(** [atob(data)]: [None] stands for the thrown [InvalidCharacterError]. *)
Definition atob (data : string) : option (list Z) :=
  let cs := filter (fun c => negb (is_ascii_whitespace c))
                   (list_ascii_of_string data) in
  let cs := strip_padding cs in
  if (Z.of_nat (List.length cs)) mod 4 =? 1 then None
  else option_map bytes_of_sextets (sextets cs).

Fixpoint chars_of_bytes (l : list Z) : list ascii :=
  match l with
  | x :: y :: z :: rest =>
      char_of_sextet (x / 4)
        :: char_of_sextet ((x mod 4) * 16 + y / 16)
        :: char_of_sextet ((y mod 16) * 4 + z / 64)
        :: char_of_sextet (z mod 64)
        :: chars_of_bytes rest
  | [x; y] =>
      [char_of_sextet (x / 4); char_of_sextet ((x mod 4) * 16 + y / 16);
       char_of_sextet ((y mod 16) * 4); pad]
  | [x] =>
      [char_of_sextet (x / 4); char_of_sextet ((x mod 4) * 16); pad; pad]
  | [] => []
  end.

(** [btoa(String.fromCharCode(...bytes))]. *)
Definition btoa (bytes : list Z) : string :=
  string_of_list_ascii (chars_of_bytes bytes).

End Base64.

Module TypedArray.

(** The signed reading of a 16-bit pattern. *)
Definition int16_of_bits (u : Z) : Z :=
  if 32768 <=? u then u - 65536 else u.

(** [new Int16Array(bytes.buffer)]: the bytes read two by two, low byte
    first; [None] stands for the [RangeError] thrown when the byte length
    is odd. *)
Fixpoint Int16Array_of_buffer (bytes : list Z) : option (list Z) :=
  match bytes with
  | [] => Some []
  | lo :: hi :: rest =>
      option_map (cons (int16_of_bits (lo + 256 * hi)))
                 (Int16Array_of_buffer rest)
  | [_] => None
  end.

End TypedArray.

Import JSNumber PCM16 Base64 TypedArray.

(** ** The constants of [config/realtime.ts] read by the page *)

Module REALTIME_CONFIG.

(** [bargeIn.speechThreshold: 0.02], the double nearest to 2/100. *)
Definition speechThreshold : number :=
  Eval vm_compute in div (ofZ 2) (ofZ 100).

(** [bargeIn.consecutiveFrames: 2]. *)
Definition consecutiveFrames : Z := 2.

(** [bargeIn.cooldownMs: 500]; [interrupt] does not read it, it compares
    with its own literal 500. *)
Definition cooldownMs : Z := 500.

End REALTIME_CONFIG.

(** ** State of the page component and of the browser objects it drives *)

Module Voice.

Local Open Scope string_scope.
Local Open Scope Z_scope.

(** [WebSocket.readyState]. *)
Inductive ReadyState := CONNECTING | OPEN | CLOSING | CLOSED.

(** An [Int16Array] pushed on the queue: a JavaScript object, hence an
    identity ([ident], allocation order) besides its contents. *)
Record Int16Array := { ident : nat; samples : list Z }.

(** An [AudioBufferSourceNode] and the [AudioContext] that created it. *)
Record SourceNode := { node_id : nat; node_ctx : nat }.

Record Message := { role : string; content : string }.

(** A parsed inbound message: [data.type] and the fields the handler
    reads. *)
Record ServerEvent := {
  type : string;
  delta : string;
  transcript : string;
  call_id : string;
  name : string;
  error_message : string
}.

(** What the handlers do to the outside. *)
Inductive Effect :=
| WsSend (type : string)
    (* wsRef.current.send(JSON.stringify({ type })) *)
| WsSendSessionUpdate
    (* the session.update message of ws.onopen *)
| WsSendAudio (audio : string)
    (* { type: "input_audio_buffer.append", audio } *)
| WsClose
    (* wsRef.current.close() *)
| SourceStart (source : SourceNode) (pcm16 : Int16Array)
    (* source.start() on the buffer made from pcm16 *)
| SourceStop (source : SourceNode)
    (* source.stop() *)
| WsSendFunctionOutput (callId output : string)
    (* conversation.item.create with the function_call_output *)
| WsSendFunctionError (callId message : string)
    (* the same with { success: false, error: message } as output *)
| McpDeepResearch (callId query : string)
    (* mcpClient.deepResearch(query), awaited *)
| McpQuickSearch (callId query : string)
    (* mcpClient.quickSearch(query), awaited *)
| InitializeAudio
    (* initializeAudio(), not awaited *)
| ConnectWithWebSocket
    (* connectWithWebSocket() *)
| ConsoleLog (text : string)
| ConsoleError (text : string)
| UnhandledRejection (reason : string).
    (* an exception that leaves an async function nobody awaits *)

Record State := mkState {
  connected : bool;
  isListening : bool;
  isAssistantSpeaking : bool;
  isResearching : bool;
  error : option string;
  messages : list Message;
  wsRef : option ReadyState;
  audioStream : option bool;
  audioContextRef : option nat;
  audioQueueRef : list Int16Array;
  isPlayingRef : bool;
  isAssistantSpeakingRef : bool;
  currentAudioSourceRef : option SourceNode;
  lastInterruptTimeRef : Z;
  speechFramesRef : Z;
  functionCallArgsRef : string;
  nextArray : nat;
  nextSource : nat;
  nextContext : nat;
  closedContexts : list nat;
  sounding : list SourceNode;
  awaiting : list SourceNode;
  trace : list Effect
}.

Definition set_connected (v : bool) (s : State) : State :=
  mkState v (isListening s) (isAssistantSpeaking s) (isResearching s)
    (error s) (messages s) (wsRef s) (audioStream s) (audioContextRef s)
    (audioQueueRef s) (isPlayingRef s) (isAssistantSpeakingRef s)
    (currentAudioSourceRef s) (lastInterruptTimeRef s) (speechFramesRef s)
    (functionCallArgsRef s) (nextArray s) (nextSource s) (nextContext s)
    (closedContexts s) (sounding s) (awaiting s) (trace s).

Definition set_isListening (v : bool) (s : State) : State :=
  mkState (connected s) v (isAssistantSpeaking s) (isResearching s)
    (error s) (messages s) (wsRef s) (audioStream s) (audioContextRef s)
    (audioQueueRef s) (isPlayingRef s) (isAssistantSpeakingRef s)
    (currentAudioSourceRef s) (lastInterruptTimeRef s) (speechFramesRef s)
    (functionCallArgsRef s) (nextArray s) (nextSource s) (nextContext s)
    (closedContexts s) (sounding s) (awaiting s) (trace s).

Definition set_isAssistantSpeaking (v : bool) (s : State) : State :=
  mkState (connected s) (isListening s) v (isResearching s) (error s)
    (messages s) (wsRef s) (audioStream s) (audioContextRef s)
    (audioQueueRef s) (isPlayingRef s) (isAssistantSpeakingRef s)
    (currentAudioSourceRef s) (lastInterruptTimeRef s) (speechFramesRef s)
    (functionCallArgsRef s) (nextArray s) (nextSource s) (nextContext s)
    (closedContexts s) (sounding s) (awaiting s) (trace s).

Definition set_isResearching (v : bool) (s : State) : State :=
  mkState (connected s) (isListening s) (isAssistantSpeaking s) v (error
    s) (messages s) (wsRef s) (audioStream s) (audioContextRef s)
    (audioQueueRef s) (isPlayingRef s) (isAssistantSpeakingRef s)
    (currentAudioSourceRef s) (lastInterruptTimeRef s) (speechFramesRef s)
    (functionCallArgsRef s) (nextArray s) (nextSource s) (nextContext s)
    (closedContexts s) (sounding s) (awaiting s) (trace s).

Definition set_error (v : option string) (s : State) : State :=
  mkState (connected s) (isListening s) (isAssistantSpeaking s)
    (isResearching s) v (messages s) (wsRef s) (audioStream s)
    (audioContextRef s) (audioQueueRef s) (isPlayingRef s)
    (isAssistantSpeakingRef s) (currentAudioSourceRef s)
    (lastInterruptTimeRef s) (speechFramesRef s) (functionCallArgsRef s)
    (nextArray s) (nextSource s) (nextContext s) (closedContexts s)
    (sounding s) (awaiting s) (trace s).

Definition set_messages (v : list Message) (s : State) : State :=
  mkState (connected s) (isListening s) (isAssistantSpeaking s)
    (isResearching s) (error s) v (wsRef s) (audioStream s)
    (audioContextRef s) (audioQueueRef s) (isPlayingRef s)
    (isAssistantSpeakingRef s) (currentAudioSourceRef s)
    (lastInterruptTimeRef s) (speechFramesRef s) (functionCallArgsRef s)
    (nextArray s) (nextSource s) (nextContext s) (closedContexts s)
    (sounding s) (awaiting s) (trace s).

Definition set_wsRef (v : option ReadyState) (s : State) : State :=
  mkState (connected s) (isListening s) (isAssistantSpeaking s)
    (isResearching s) (error s) (messages s) v (audioStream s)
    (audioContextRef s) (audioQueueRef s) (isPlayingRef s)
    (isAssistantSpeakingRef s) (currentAudioSourceRef s)
    (lastInterruptTimeRef s) (speechFramesRef s) (functionCallArgsRef s)
    (nextArray s) (nextSource s) (nextContext s) (closedContexts s)
    (sounding s) (awaiting s) (trace s).

Definition set_audioStream (v : option bool) (s : State) : State :=
  mkState (connected s) (isListening s) (isAssistantSpeaking s)
    (isResearching s) (error s) (messages s) (wsRef s) v (audioContextRef
    s) (audioQueueRef s) (isPlayingRef s) (isAssistantSpeakingRef s)
    (currentAudioSourceRef s) (lastInterruptTimeRef s) (speechFramesRef s)
    (functionCallArgsRef s) (nextArray s) (nextSource s) (nextContext s)
    (closedContexts s) (sounding s) (awaiting s) (trace s).

Definition set_audioContextRef (v : option nat) (s : State) : State :=
  mkState (connected s) (isListening s) (isAssistantSpeaking s)
    (isResearching s) (error s) (messages s) (wsRef s) (audioStream s) v
    (audioQueueRef s) (isPlayingRef s) (isAssistantSpeakingRef s)
    (currentAudioSourceRef s) (lastInterruptTimeRef s) (speechFramesRef s)
    (functionCallArgsRef s) (nextArray s) (nextSource s) (nextContext s)
    (closedContexts s) (sounding s) (awaiting s) (trace s).

Definition set_audioQueueRef (v : list Int16Array) (s : State) : State :=
  mkState (connected s) (isListening s) (isAssistantSpeaking s)
    (isResearching s) (error s) (messages s) (wsRef s) (audioStream s)
    (audioContextRef s) v (isPlayingRef s) (isAssistantSpeakingRef s)
    (currentAudioSourceRef s) (lastInterruptTimeRef s) (speechFramesRef s)
    (functionCallArgsRef s) (nextArray s) (nextSource s) (nextContext s)
    (closedContexts s) (sounding s) (awaiting s) (trace s).

Definition set_isPlayingRef (v : bool) (s : State) : State :=
  mkState (connected s) (isListening s) (isAssistantSpeaking s)
    (isResearching s) (error s) (messages s) (wsRef s) (audioStream s)
    (audioContextRef s) (audioQueueRef s) v (isAssistantSpeakingRef s)
    (currentAudioSourceRef s) (lastInterruptTimeRef s) (speechFramesRef s)
    (functionCallArgsRef s) (nextArray s) (nextSource s) (nextContext s)
    (closedContexts s) (sounding s) (awaiting s) (trace s).

Definition set_isAssistantSpeakingRef (v : bool) (s : State) : State :=
  mkState (connected s) (isListening s) (isAssistantSpeaking s)
    (isResearching s) (error s) (messages s) (wsRef s) (audioStream s)
    (audioContextRef s) (audioQueueRef s) (isPlayingRef s) v
    (currentAudioSourceRef s) (lastInterruptTimeRef s) (speechFramesRef s)
    (functionCallArgsRef s) (nextArray s) (nextSource s) (nextContext s)
    (closedContexts s) (sounding s) (awaiting s) (trace s).

Definition set_currentAudioSourceRef (v : option SourceNode) (s : State) : State :=
  mkState (connected s) (isListening s) (isAssistantSpeaking s)
    (isResearching s) (error s) (messages s) (wsRef s) (audioStream s)
    (audioContextRef s) (audioQueueRef s) (isPlayingRef s)
    (isAssistantSpeakingRef s) v (lastInterruptTimeRef s) (speechFramesRef
    s) (functionCallArgsRef s) (nextArray s) (nextSource s) (nextContext
    s) (closedContexts s) (sounding s) (awaiting s) (trace s).

Definition set_lastInterruptTimeRef (v : Z) (s : State) : State :=
  mkState (connected s) (isListening s) (isAssistantSpeaking s)
    (isResearching s) (error s) (messages s) (wsRef s) (audioStream s)
    (audioContextRef s) (audioQueueRef s) (isPlayingRef s)
    (isAssistantSpeakingRef s) (currentAudioSourceRef s) v
    (speechFramesRef s) (functionCallArgsRef s) (nextArray s) (nextSource
    s) (nextContext s) (closedContexts s) (sounding s) (awaiting s) (trace
    s).

Definition set_speechFramesRef (v : Z) (s : State) : State :=
  mkState (connected s) (isListening s) (isAssistantSpeaking s)
    (isResearching s) (error s) (messages s) (wsRef s) (audioStream s)
    (audioContextRef s) (audioQueueRef s) (isPlayingRef s)
    (isAssistantSpeakingRef s) (currentAudioSourceRef s)
    (lastInterruptTimeRef s) v (functionCallArgsRef s) (nextArray s)
    (nextSource s) (nextContext s) (closedContexts s) (sounding s)
    (awaiting s) (trace s).

Definition set_functionCallArgsRef (v : string) (s : State) : State :=
  mkState (connected s) (isListening s) (isAssistantSpeaking s)
    (isResearching s) (error s) (messages s) (wsRef s) (audioStream s)
    (audioContextRef s) (audioQueueRef s) (isPlayingRef s)
    (isAssistantSpeakingRef s) (currentAudioSourceRef s)
    (lastInterruptTimeRef s) (speechFramesRef s) v (nextArray s)
    (nextSource s) (nextContext s) (closedContexts s) (sounding s)
    (awaiting s) (trace s).

Definition set_nextArray (v : nat) (s : State) : State :=
  mkState (connected s) (isListening s) (isAssistantSpeaking s)
    (isResearching s) (error s) (messages s) (wsRef s) (audioStream s)
    (audioContextRef s) (audioQueueRef s) (isPlayingRef s)
    (isAssistantSpeakingRef s) (currentAudioSourceRef s)
    (lastInterruptTimeRef s) (speechFramesRef s) (functionCallArgsRef s) v
    (nextSource s) (nextContext s) (closedContexts s) (sounding s)
    (awaiting s) (trace s).

Definition set_nextSource (v : nat) (s : State) : State :=
  mkState (connected s) (isListening s) (isAssistantSpeaking s)
    (isResearching s) (error s) (messages s) (wsRef s) (audioStream s)
    (audioContextRef s) (audioQueueRef s) (isPlayingRef s)
    (isAssistantSpeakingRef s) (currentAudioSourceRef s)
    (lastInterruptTimeRef s) (speechFramesRef s) (functionCallArgsRef s)
    (nextArray s) v (nextContext s) (closedContexts s) (sounding s)
    (awaiting s) (trace s).

Definition set_nextContext (v : nat) (s : State) : State :=
  mkState (connected s) (isListening s) (isAssistantSpeaking s)
    (isResearching s) (error s) (messages s) (wsRef s) (audioStream s)
    (audioContextRef s) (audioQueueRef s) (isPlayingRef s)
    (isAssistantSpeakingRef s) (currentAudioSourceRef s)
    (lastInterruptTimeRef s) (speechFramesRef s) (functionCallArgsRef s)
    (nextArray s) (nextSource s) v (closedContexts s) (sounding s)
    (awaiting s) (trace s).

Definition set_closedContexts (v : list nat) (s : State) : State :=
  mkState (connected s) (isListening s) (isAssistantSpeaking s)
    (isResearching s) (error s) (messages s) (wsRef s) (audioStream s)
    (audioContextRef s) (audioQueueRef s) (isPlayingRef s)
    (isAssistantSpeakingRef s) (currentAudioSourceRef s)
    (lastInterruptTimeRef s) (speechFramesRef s) (functionCallArgsRef s)
    (nextArray s) (nextSource s) (nextContext s) v (sounding s) (awaiting
    s) (trace s).

Definition set_sounding (v : list SourceNode) (s : State) : State :=
  mkState (connected s) (isListening s) (isAssistantSpeaking s)
    (isResearching s) (error s) (messages s) (wsRef s) (audioStream s)
    (audioContextRef s) (audioQueueRef s) (isPlayingRef s)
    (isAssistantSpeakingRef s) (currentAudioSourceRef s)
    (lastInterruptTimeRef s) (speechFramesRef s) (functionCallArgsRef s)
    (nextArray s) (nextSource s) (nextContext s) (closedContexts s) v
    (awaiting s) (trace s).

Definition set_awaiting (v : list SourceNode) (s : State) : State :=
  mkState (connected s) (isListening s) (isAssistantSpeaking s)
    (isResearching s) (error s) (messages s) (wsRef s) (audioStream s)
    (audioContextRef s) (audioQueueRef s) (isPlayingRef s)
    (isAssistantSpeakingRef s) (currentAudioSourceRef s)
    (lastInterruptTimeRef s) (speechFramesRef s) (functionCallArgsRef s)
    (nextArray s) (nextSource s) (nextContext s) (closedContexts s)
    (sounding s) v (trace s).

Definition set_trace (v : list Effect) (s : State) : State :=
  mkState (connected s) (isListening s) (isAssistantSpeaking s)
    (isResearching s) (error s) (messages s) (wsRef s) (audioStream s)
    (audioContextRef s) (audioQueueRef s) (isPlayingRef s)
    (isAssistantSpeakingRef s) (currentAudioSourceRef s)
    (lastInterruptTimeRef s) (speechFramesRef s) (functionCallArgsRef s)
    (nextArray s) (nextSource s) (nextContext s) (closedContexts s)
    (sounding s) (awaiting s) v.

(** *** Small operations on the browser objects *)

Definition emit (e : Effect) (s : State) : State :=
  set_trace (trace s ++ [e]) s.

(** [wsRef.current?.readyState === WebSocket.OPEN]. *)
Definition ws_open (s : State) : bool :=
  match wsRef s with Some OPEN => true | _ => false end.

Definition SourceNode_eqb (a b : SourceNode) : bool :=
  Nat.eqb (node_id a) (node_id b) && Nat.eqb (node_ctx a) (node_ctx b).

Definition without (source : SourceNode) (l : list SourceNode) :=
  filter (fun n => negb (SourceNode_eqb n source)) l.

(** [source.stop()]: the node falls silent.  Every node the page keeps a
    reference to has been started in the statement that follows the
    assignment of the reference, so [stop] does not throw and the [catch]
    around it is never entered. *)
Definition source_stop (source : SourceNode) (s : State) : State :=
  emit (SourceStop source) (set_sounding (without source (sounding s)) s).

Definition context_closed (ctx : nat) (s : State) : bool :=
  existsb (Nat.eqb ctx) (closedContexts s).

(** *** [interrupt] *)

Definition interrupt (now : Z) (s : State) : State :=
  if ws_open s then
    if now - lastInterruptTimeRef s <? 500 then s
    else
      let s := set_lastInterruptTimeRef now s in
      let s := emit (ConsoleLog "Barge-in: Interrupting assistant...") s in
      let s := emit (WsSend "response.cancel") s in
      let s := emit (WsSend "output_audio_buffer.clear") s in
      let s :=
        match currentAudioSourceRef s with
        | Some source =>
            set_currentAudioSourceRef None (source_stop source s)
        | None => s
        end in
      let s := set_audioQueueRef [] s in
      let s := set_isPlayingRef false s in
      let s := set_isAssistantSpeakingRef false s in
      let s := set_speechFramesRef 0 s in
      emit (ConsoleLog "Interrupt complete - ready for new input") s
  else s.

(** *** [playAudioQueue]

    The function is [async] and awaits the [ended] event of the node it
    has just started.  [iteration] is the loop from its test to that
    [await]; [playAudioQueue] is the segment from the call to the first
    [await]; [resume] is the segment that runs when the awaited event
    arrives.  [audioContext.createBuffer(1, 0, 24000)] throws
    [NotSupportedError] (a buffer has at least one frame): the exception
    leaves the async function as a rejected promise, the statements after
    it do not run. *)

Definition iteration (audioContext : nat) (s : State) : State :=
  match audioQueueRef s with
  | [] => set_isPlayingRef false s
  | pcm16 :: rest =>
      let s := set_audioQueueRef rest s in
      let float32 := toFloat32 (samples pcm16) in
      if Nat.eqb (List.length float32) 0 then
        emit (UnhandledRejection "NotSupportedError") s
      else
        let source :=
          {| node_id := nextSource s; node_ctx := audioContext |} in
        let s := set_nextSource (S (nextSource s)) s in
        let s := set_currentAudioSourceRef (Some source) s in
        let s := emit (SourceStart source pcm16) s in
        let s :=
          set_sounding
            (if context_closed audioContext s then sounding s
             else source :: sounding s) s in
        set_awaiting (source :: awaiting s) s
  end.

Definition playAudioQueue (s : State) : State :=
  match audioContextRef s, audioQueueRef s with
  | None, _ | _, [] => set_isPlayingRef false s
  | Some audioContext, _ :: _ =>
      iteration audioContext (set_isPlayingRef true s)
  end.

Definition resume (source : SourceNode) (s : State) : State :=
  let s :=
    match currentAudioSourceRef s with
    | Some current =>
        if SourceNode_eqb current source
        then set_currentAudioSourceRef None s else s
    | None => s
    end in
  iteration (node_ctx source) s.

(** The [ended] event of a node: the node is silent from now on, and the
    loop that awaits it, if there is one, goes on. *)
Definition source_onended (source : SourceNode) (s : State) : State :=
  if existsb (SourceNode_eqb source) (awaiting s) then
    resume source
      (set_awaiting (without source (awaiting s))
         (set_sounding (without source (sounding s)) s))
  else s.

(** *** [playAudioDelta] *)

Definition playAudioDelta (delta : string) (s : State) : State :=
  match atob delta with
  | None => emit (ConsoleError "Audio playback error:") s
  | Some bytes =>
      match Int16Array_of_buffer bytes with
      | None => emit (ConsoleError "Audio playback error:") s
      | Some values =>
          let pcm16 := {| ident := nextArray s; samples := values |} in
          let s := set_nextArray (S (nextArray s)) s in
          let s := set_audioQueueRef (audioQueueRef s ++ [pcm16]) s in
          if negb (isPlayingRef s) then playAudioQueue s else s
      end
  end.

(** *** [updateMessages] *)

Definition updateMessages (role content : string) (prev : list Message)
  : list Message :=
  match rev prev with
  | lastMsg :: _ =>
      if String.eqb (Voice.role lastMsg) role then
        removelast prev
          ++ [{| role := role;
                 content := (Voice.content lastMsg ++ content)%string |}]
      else prev ++ [{| role := role; content := content |}]
  | [] => prev ++ [{| role := role; content := content |}]
  end.

Definition update_messages (role content : string) (s : State) : State :=
  set_messages (updateMessages role content (messages s)) s.

(** *** [processor.onaudioprocess] *)

(** [sum / inputData.length], the mean of the absolute sample values. *)
Definition average (inputData : Float32Array) : number :=
  div (fold_left (fun sum x => add sum (abs x)) inputData (ofZ 0))
      (ofZ (Z.of_nat (List.length inputData))).

(** The detector block of the callback, given the level of the frame. *)
Definition detector (level : number) (now : Z) (s : State) : State :=
  if isAssistantSpeakingRef s then
    if gtb level REALTIME_CONFIG.speechThreshold then
      let s := set_speechFramesRef (speechFramesRef s + 1) s in
      if REALTIME_CONFIG.consecutiveFrames <=? speechFramesRef s then
        interrupt now
          (emit (ConsoleLog "User speech detected - triggering barge-in") s)
      else s
    else
      if 0 <? speechFramesRef s
      then set_speechFramesRef (Z.max 0 (speechFramesRef s - 1)) s
      else s
  else set_speechFramesRef 0 s.

Definition onaudioprocess (inputData : Float32Array) (now : Z) (s : State)
  : State :=
  if ws_open s then
    let s := detector (average inputData) now s in
    emit (WsSendAudio (btoa (convertToPCM16 inputData))) s
  else s.

(** *** [initializeAudio], after [getUserMedia] has settled *)

Definition initializeAudio_granted (s : State) : State :=
  let s := set_audioStream (Some true) s in
  let s := set_isListening true s in
  let s := set_audioContextRef (Some (nextContext s)) s in
  set_nextContext (S (nextContext s)) s.

Definition initializeAudio_failed (s : State) : State :=
  let s := emit (ConsoleError "Audio initialization failed:") s in
  set_error (Some "Failed to access microphone") s.

(** *** [handleFunctionCall]

    [JSON_parse_query argsJson] stands for [JSON.parse(argsJson)] followed
    by the reading of [args.query]: [None] when that throws.  The call of
    [mcpClient] is awaited; its result comes back in a later task
    ([handleFunctionCall_result]); [mcpClient] catches its own failures
    and always returns a result. *)

Section Handlers.

Variable JSON_parse_query : string -> option string.

Definition send_function_output (callId output : string) (s : State)
  : State :=
  if ws_open s then
    emit (WsSend "response.create")
      (emit (WsSendFunctionOutput callId output) s)
  else s.

Definition handleFunctionCall_catch (callId message : string) (s : State)
  : State :=
  let s := emit (ConsoleError "Function call error:") s in
  let s := set_isResearching false s in
  if ws_open s then
    emit (WsSend "response.create")
      (emit (WsSendFunctionError callId message) s)
  else s.

Definition handleFunctionCall (callId name argsJson : string) (s : State)
  : State :=
  let s := set_isResearching true s in
  match JSON_parse_query argsJson with
  | None => handleFunctionCall_catch callId "JSON.parse" s
  | Some query =>
      if String.eqb name "deep_research" then
        emit (McpDeepResearch callId query)
          (update_messages "system" ("Researching: " ++ query ++ "...") s)
      else if String.eqb name "quick_search" then
        emit (McpQuickSearch callId query)
          (update_messages "system" ("Searching: " ++ query ++ "...") s)
      else
        handleFunctionCall_catch callId ("Unknown function: " ++ name) s
  end.

Definition handleFunctionCall_result (callId result : string) (s : State)
  : State :=
  let s := set_isResearching false s in
  send_function_output callId result s.

(** *** The socket handlers installed by [connectWithWebSocket] *)

Definition ws_onopen (s : State) : State :=
  let s := emit WsSendSessionUpdate s in
  let s := set_connected true s in
  emit InitializeAudio s.

Definition response_finished (s : State) : State :=
  set_isAssistantSpeaking false (set_isAssistantSpeakingRef false s).

Definition ws_onmessage (data : ServerEvent) (s : State) : State :=
  let t := type data in
  if String.eqb t "session.created" || String.eqb t "session.updated"
  then s
  else if String.eqb t "input_audio_buffer.speech_started"
  then set_isListening true s
  else if String.eqb t "input_audio_buffer.speech_stopped" then s
  else if String.eqb t "input_audio_buffer.committed" then s
  else if String.eqb t "conversation.item.created" then s
  else if String.eqb t "response.created"
  then set_isAssistantSpeaking true (set_isAssistantSpeakingRef true s)
  else if String.eqb t "response.audio.delta"
  then playAudioDelta (delta data) (set_isAssistantSpeakingRef true s)
  else if String.eqb t "response.audio_transcript.delta"
  then update_messages "assistant" (delta data) s
  else if String.eqb t
            "conversation.item.input_audio_transcription.completed"
  then update_messages "user" (transcript data) s
  else if String.eqb t "response.done" then response_finished s
  else if String.eqb t "response.audio.done" then response_finished s
  else if String.eqb t "response.cancelled" then response_finished s
  else if String.eqb t "response.function_call_arguments.delta"
  then set_functionCallArgsRef (functionCallArgsRef s ++ delta data) s
  else if String.eqb t "response.function_call_arguments.done"
  then
    let args := functionCallArgsRef s in
    handleFunctionCall (call_id data) (name data) args
      (set_functionCallArgsRef "" s)
  else if String.eqb t "error"
  then set_error (Some (error_message data))
         (emit (ConsoleError "Server error:") s)
  else s.

Definition ws_onerror (s : State) : State :=
  set_error (Some "WebSocket connection failed")
    (emit (ConsoleError "WebSocket error:") s).

Definition ws_onclose (s : State) : State :=
  set_isListening false (set_connected false s).

(** [connectWithWebSocket], after the token request has settled. *)
Definition connect_socket_created (s : State) : State :=
  set_wsRef (Some CONNECTING) s.

Definition connect_failed (message : string) (s : State) : State :=
  set_error (Some message) (emit (ConsoleError "Connection error:") s).

(** *** [onConnect] *)

(** [wsRef.current?.close()]. *)
Definition ws_close (s : State) : State :=
  match wsRef s with
  | None => s
  | Some (CONNECTING | OPEN) =>
      emit Voice.WsClose (set_wsRef (Some CLOSING) s)
  | Some _ => emit Voice.WsClose s
  end.

(** [audioContextRef.current.close()]: nothing of that context sounds
    any more. *)
Definition context_close (s : State) : State :=
  match audioContextRef s with
  | None => s
  | Some ctx =>
      let s := set_closedContexts (ctx :: closedContexts s) s in
      set_sounding
        (filter (fun n => negb (Nat.eqb (node_ctx n) ctx)) (sounding s)) s
  end.

Definition onConnect (now : Z) (s : State) : State :=
  if connected s then
    let s := interrupt now s in
    let s :=
      match audioStream s with
      | Some _ => set_audioStream (Some false) s
      | None => s
      end in
    let s := context_close s in
    let s := ws_close s in
    let s := set_connected false s in
    let s := set_isListening false s in
    let s := set_isAssistantSpeaking false s in
    set_isAssistantSpeakingRef false s
  else
    emit ConnectWithWebSocket (set_error None s).

(** *** The event loop

    One event is one task of the browser; the handlers run to completion.
    The Interrupt button is rendered only when [connected], and is
    disabled unless [isAssistantSpeaking]. *)

Inductive Event :=
| ClickConnect (now : Z)
| ClickInterrupt (now : Z)
| TokenObtained
| TokenFailed (message : string)
| SocketOpen
| SocketMessage (data : ServerEvent)
| SocketError
| SocketClose
| MicrophoneGranted
| MicrophoneDenied
| AudioProcess (inputData : Float32Array) (now : Z)
| SourceEnded (source : SourceNode)
| FunctionResult (callId result : string).

Definition step (e : Event) (s : State) : State :=
  match e with
  | ClickConnect now => onConnect now s
  | ClickInterrupt now =>
      if connected s && isAssistantSpeaking s then interrupt now s else s
  | TokenObtained => connect_socket_created s
  | TokenFailed message => connect_failed message s
  | SocketOpen => ws_onopen (set_wsRef (Some OPEN) s)
  | SocketMessage data => ws_onmessage data s
  | SocketError => ws_onerror s
  | SocketClose => ws_onclose (set_wsRef (Some CLOSED) s)
  | MicrophoneGranted => initializeAudio_granted s
  | MicrophoneDenied => initializeAudio_failed s
  | AudioProcess inputData now => onaudioprocess inputData now s
  | SourceEnded source => source_onended source s
  | FunctionResult callId result => handleFunctionCall_result callId result s
  end.

Definition run (events : list Event) (s : State) : State :=
  fold_left (fun s e => step e s) events s.

End Handlers.

(** The component as first rendered. *)
Definition initial : State :=
  {| connected := false; isListening := false;
     isAssistantSpeaking := false; isResearching := false;
     error := None; messages := [];
     wsRef := None; audioStream := None; audioContextRef := None;
     audioQueueRef := []; isPlayingRef := false;
     isAssistantSpeakingRef := false; currentAudioSourceRef := None;
     lastInterruptTimeRef := 0; speechFramesRef := 0;
     functionCallArgsRef := "";
     nextArray := 0; nextSource := 0; nextContext := 0;
     closedContexts := []; sounding := []; awaiting := []; trace := [] |}.

End Voice.

(** ** Observations on a state, and the scenarios used as concrete inputs *)

Module Observe.
Import Voice.
Local Open Scope string_scope.
Local Open Scope Z_scope.

Definition is_send (ty : string) (e : Effect) : bool :=
  match e with WsSend t => String.eqb t ty | _ => false end.

Definition is_log (text : string) (e : Effect) : bool :=
  match e with ConsoleLog t => String.eqb t text | _ => false end.

Definition is_start (e : Effect) : bool :=
  match e with SourceStart _ _ => true | _ => false end.

Definition count (p : Effect -> bool) (l : list Effect) : Z :=
  Z.of_nat (List.length (filter p l)).

(** Messages of type [ty] sent on the socket so far. *)
Definition sends (ty : string) (s : State) : Z :=
  count (is_send ty) (trace s).

(** Triggers emitted by the detector so far: each one is announced on the
    console just before [interrupt()] is called. *)
Definition triggers (s : State) : Z :=
  count (is_log "User speech detected - triggering barge-in") (trace s).

(** Action sequences executed so far: each one opens with its console
    line. *)
Definition executed (s : State) : Z :=
  count (is_log "Barge-in: Interrupting assistant...") (trace s).

(** The chunks handed to the audio device so far, in the order of their
    [start()]. *)
Fixpoint started_in (l : list Effect) : list Int16Array :=
  match l with
  | [] => []
  | SourceStart _ pcm16 :: rest => pcm16 :: started_in rest
  | _ :: rest => started_in rest
  end.

Definition started (s : State) : list Int16Array := started_in (trace s).

(** The level test of the detector. *)
Definition above (inputData : Float32Array) : bool :=
  gtb (average inputData) REALTIME_CONFIG.speechThreshold.

(** Frames handed one after the other to [onaudioprocess], each with the
    clock reading of its callback. *)
Definition feed (frames : list (Float32Array * Z)) (s : State) : State :=
  fold_left (fun s f => onaudioprocess (fst f) (snd f) s) frames s.

(** The turn of the conversation as the page's cells encode it: no open
    socket is [Idle]; with an open socket [isAssistantSpeakingRef] tells
    the assistant's turn from the user's.  [interrupt] runs to completion
    inside one task, so [Interrupting] is never observed between tasks. *)
Inductive TurnState := Idle | UserTurn | AssistantTurn | Interrupting.

Definition turnState (s : State) : TurnState :=
  if ws_open s then
    if isAssistantSpeakingRef s then AssistantTurn else UserTurn
  else Idle.

End Observe.

Module Scenario.
Import Voice Observe.
Local Open Scope string_scope.
Local Open Scope Z_scope.

Definition message (ty : string) : ServerEvent :=
  {| type := ty; delta := ""; transcript := ""; call_id := "";
     name := ""; error_message := "" |}.

Definition audio (payload : string) : ServerEvent :=
  {| type := "response.audio.delta"; delta := payload; transcript := "";
     call_id := ""; name := ""; error_message := "" |}.

(** No function call occurs in the scenarios. *)
Definition no_json : string -> option string := fun _ => None.

(** Connect is clicked, the token arrives, the socket opens and the
    microphone is granted. *)
Definition connect : list Event :=
  [ClickConnect 0; TokenObtained; SocketOpen; MicrophoneGranted].

(** One-sample frames: level 0.03, above the threshold, and silence. *)
Definition loud : Float32Array := [fround (div (ofZ 3) (ofZ 100))].
Definition silent : Float32Array := [ofZ 0].

(** Three chunks of one sample each (1, 2 and 3), and their nodes. *)
Definition chunkA := "AQA=".
Definition chunkB := "AgA=".
Definition chunkC := "AwA=".

Definition node (n : nat) : SourceNode := {| node_id := n; node_ctx := 0 |}.

Definition session (events : list Event) : State :=
  run no_json (connect ++ events) initial.

(** The assistant has begun a response; A is sounding, B and C wait. *)
Definition speaking : State :=
  session [SocketMessage (message "response.created");
           SocketMessage (audio chunkA);
           SocketMessage (audio chunkB);
           SocketMessage (audio chunkC)].

End Scenario.

(** ** Auxiliary definitions of the statements *)

Import Voice Observe.
Local Open Scope string_scope.
Local Open Scope Z_scope.
Local Open Scope list_scope.

(** The effects of one executed action sequence, given the node that
    [currentAudioSourceRef] holds when it begins. *)
Definition action_sequence (current : option SourceNode) : list Effect :=
  [ConsoleLog "Barge-in: Interrupting assistant...";
   WsSend "response.cancel";
   WsSend "output_audio_buffer.clear"]
  ++ match current with Some source => [SourceStop source] | None => [] end
  ++ [ConsoleLog "Interrupt complete - ready for new input"].

(** The count the detector leaves when it does not call [interrupt]. *)
Definition next_count (loud : bool) (s : State) : Z :=
  if isAssistantSpeakingRef s then
    if loud then speechFramesRef s + 1
    else if 0 <? speechFramesRef s then Z.max 0 (speechFramesRef s - 1)
         else speechFramesRef s
  else 0.

(** The integers [lo], [lo + 1], ..., [n] of them. *)
Fixpoint zrange (n : nat) (lo : Z) : list Z :=
  match n with
  | O => []
  | S k => lo :: zrange k (lo + 1)
  end.



(** [sub l1 l2]: [l1] is [l2] with some elements left out. *)
Inductive sub {A : Type} : list A -> list A -> Prop :=
| sub_nil : sub [] []
| sub_skip x l1 l2 : sub l1 l2 -> sub l1 (x :: l2)
| sub_keep x l1 l2 : sub l1 l2 -> sub (x :: l1) (x :: l2).

(** How a stretch of execution changes the chunks: some have been pushed,
    with the next identities in order; some have moved from the queue to
    the audio device, in queue order; some have been dropped. *)
Definition chunk_step (s s' : State) : Prop :=
  exists pushed moved,
    map ident pushed = seq (nextArray s) (List.length pushed) /\
    nextArray s' = (nextArray s + List.length pushed)%nat /\
    started s' = started s ++ moved /\
    sub (moved ++ audioQueueRef s') (audioQueueRef s ++ pushed).

(** Chunks started and chunks waiting, in that order, carry strictly
    increasing identities, all below the next identity to be given. *)
Definition ordered (s : State) : Prop :=
  StronglySorted lt (map ident (started s ++ audioQueueRef s)) /\
  Forall (fun i => (i < nextArray s)%nat)
         (map ident (started s ++ audioQueueRef s)).

Definition option_list {A} (o : option A) : list A :=
  match o with Some x => [x] | None => [] end.

(** One consume loop at most: it awaits the node of
    [currentAudioSourceRef], the only one that may sound, and
    [isPlayingRef] is set while it is suspended. *)
Definition one_loop (s : State) : Prop :=
  awaiting s = option_list (currentAudioSourceRef s) /\
  (sounding s = option_list (currentAudioSourceRef s) \/ sounding s = []) /\
  (isPlayingRef s = false -> currentAudioSourceRef s = None).

(** The clock reading an event carries, if its handler may read the
    clock. *)
Definition clock (e : Event) : option Z :=
  match e with
  | ClickConnect t | ClickInterrupt t | AudioProcess _ t => Some t
  | _ => None
  end.

(** [n] action sequences ran between [s] and [s']. *)
Definition ran (n : Z) (s s' : State) : Prop :=
  executed s' = executed s + n /\
  sends "response.cancel" s' = sends "response.cancel" s + n /\
  sends "output_audio_buffer.clear" s'
    = sends "output_audio_buffer.clear" s + n.

Definition quiet (s s' : State) : Prop :=
  ran 0 s s' /\ lastInterruptTimeRef s' = lastInterruptTimeRef s.

Definition is_socket_send (e : Effect) : bool :=
  match e with
  | WsSend _ | WsSendSessionUpdate | WsSendAudio _
  | WsSendFunctionOutput _ _ | WsSendFunctionError _ _ => true
  | _ => false
  end.

Definition socket_sends (s : State) : Z := count is_socket_send (trace s).

(** No two neighbours in the transcript have the same role. *)
Fixpoint alternating (l : list Message) : Prop :=
  match l with
  | a :: (b :: _) as rest => role a <> role b /\ alternating rest
  | _ => True
  end.

(** The text of the whole transcript, in order. *)
Definition text (l : list Message) : string :=
  fold_right (fun m acc => (content m ++ acc)%string) "" l.

(** The payload decodes to a non-empty block of samples. *)
Definition decodes (payload : string) (values : list Z) : Prop :=
  exists bytes, atob payload = Some bytes /\
                Int16Array_of_buffer bytes = Some values /\ values <> [].

Definition ended_events (ctx first count : nat) : list Event :=
  map (fun k => SourceEnded {| node_id := k; node_ctx := ctx |})
      (seq first count).

Definition audio_events (chunks : list (string * list Z)) : list Event :=
  map (fun c => SocketMessage (Scenario.audio (fst c))) chunks.

(** The arrays made from the chunks, numbered from [first]. *)
Fixpoint arrays (first : nat) (chunks : list (string * list Z))
  : list Int16Array :=
  match chunks with
  | [] => []
  | c :: rest =>
      {| ident := first; samples := snd c |} :: arrays (S first) rest
  end.

(** A loop is suspended on node [k] of context [ctx], which sounds, and
    [q] waits. *)
Definition playing (ctx k : nat) (q : list Int16Array) (s : State) : Prop :=
  context_closed ctx s = false /\
  isPlayingRef s = true /\
  currentAudioSourceRef s = Some {| node_id := k; node_ctx := ctx |} /\
  awaiting s = [{| node_id := k; node_ctx := ctx |}] /\
  sounding s = [{| node_id := k; node_ctx := ctx |}] /\
  audioQueueRef s = q /\
  nextSource s = S k.

Definition idle (s : State) : Prop :=
  isPlayingRef s = false /\ audioQueueRef s = [] /\ awaiting s = [] /\
  sounding s = [] /\ currentAudioSourceRef s = None.

(** The six-bit groups of a byte string, without the padding. *)
Fixpoint sextets_of_bytes (l : list Z) : list Z :=
  match l with
  | x :: y :: z :: rest =>
      x / 4 :: (x mod 4) * 16 + y / 16 :: (y mod 16) * 4 + z / 64
        :: z mod 64 :: sextets_of_bytes rest
  | [x; y] => [x / 4; (x mod 4) * 16 + y / 16; (y mod 16) * 4]
  | [x] => [x / 4; (x mod 4) * 16]
  | [] => []
  end.

Definition padding (l : list Z) : list ascii :=
  match (List.length l mod 3)%nat with
  | 1%nat => [pad; pad]
  | 2%nat => [pad]
  | _ => []
  end.

Definition byte (b : Z) : Prop := 0 <= b < 256.

Definition not_pad (c : ascii) : Prop := Ascii.eqb c pad = false.

(** A sample that is +0 or -0. *)
Definition is_zero (x : number) : Prop := exists s, x = S754_zero s.

(** Counting in a trace that the handlers have extended by known effects. *)
Ltac trace_count :=
  unfold executed, triggers, sends, count, emit, action_sequence; simpl;
  repeat match goal with
         | |- context [match ?c with Some _ => _ | None => _ end] =>
             destruct c
         end;
  repeat rewrite filter_app; repeat rewrite length_app; simpl; try lia.

(** * Properties *)


(** ** Basic facts *)

Lemma SourceNode_eqb_refl (n : SourceNode) : SourceNode_eqb n n = true.
Proof. unfold SourceNode_eqb. now rewrite !Nat.eqb_refl. Qed.

Lemma SourceNode_eqb_eq (a b : SourceNode) :
  SourceNode_eqb a b = true <-> a = b.
Proof.
  unfold SourceNode_eqb. destruct a as [i c], b as [j d]; simpl.
  rewrite andb_true_iff, !Nat.eqb_eq. split.
  - intros [-> ->]. reflexivity.
  - intros H. inversion H. auto.
Qed.

Lemma not_in_without (n : SourceNode) (l : list SourceNode) :
  ~ In n (without n l).
Proof.
  unfold without. rewrite filter_In. intros [_ H].
  now rewrite SourceNode_eqb_refl in H.
Qed.

Lemma in_without (n m : SourceNode) (l : list SourceNode) :
  In m (without n l) -> In m l.
Proof. unfold without. rewrite filter_In. tauto. Qed.

Lemma count_app (p : Effect -> bool) (l1 l2 : list Effect) :
  count p (l1 ++ l2) = count p l1 + count p l2.
Proof. unfold count. rewrite filter_app, length_app. lia. Qed.

Lemma count_cons (p : Effect -> bool) (e : Effect) (l : list Effect) :
  count p (e :: l) = (if p e then 1 else 0) + count p l.
Proof.
  unfold count. simpl filter.
  destruct (p e); [simpl List.length; rewrite Nat2Z.inj_succ|]; lia.
Qed.

Lemma count_nil (p : Effect -> bool) : count p [] = 0.
Proof. reflexivity. Qed.

Lemma started_in_app (l1 l2 : list Effect) :
  started_in (l1 ++ l2) = started_in l1 ++ started_in l2.
Proof.
  induction l1 as [|e l1 IH]; simpl; [reflexivity|].
  destruct e; simpl; rewrite ?IH; reflexivity.
Qed.

(** What [interrupt] does when its two guards pass. *)
Lemma interrupt_executed (now : Z) (s : State) :
  ws_open s = true ->
  500 <= now - lastInterruptTimeRef s ->
  interrupt now s =
    mkState (connected s) (isListening s) (isAssistantSpeaking s)
      (isResearching s) (error s) (messages s) (wsRef s) (audioStream s)
      (audioContextRef s) [] false false None now 0 (functionCallArgsRef s)
      (nextArray s) (nextSource s) (nextContext s) (closedContexts s)
      (match currentAudioSourceRef s with
       | Some source => without source (sounding s)
       | None => sounding s
       end)
      (awaiting s)
      (trace s ++ action_sequence (currentAudioSourceRef s)).
Proof.
  intros Hopen Hcool. unfold interrupt. rewrite Hopen.
  destruct (now - lastInterruptTimeRef s <? 500) eqn:E;
    [apply Z.ltb_lt in E; lia|].
  unfold ws_open in Hopen. unfold action_sequence.
  destruct s; simpl in *.
  destruct currentAudioSourceRef0; simpl;
    unfold emit, source_stop; simpl;
    repeat rewrite <- app_assoc; reflexivity.
Qed.

(** What [interrupt] does when a guard fails. *)
Lemma interrupt_rejected (now : Z) (s : State) :
  ws_open s = false \/ now - lastInterruptTimeRef s < 500 ->
  interrupt now s = s.
Proof.
  intros [H|H]; unfold interrupt.
  - now rewrite H.
  - destruct (ws_open s); [|reflexivity].
    apply Z.ltb_lt in H. now rewrite H.
Qed.

(** The detector block when a trigger is due: the level is above the
    threshold and the incremented count reaches the required number. *)
Lemma detector_trigger (level : number) (now : Z) (s : State) :
  isAssistantSpeakingRef s = true ->
  gtb level REALTIME_CONFIG.speechThreshold = true ->
  REALTIME_CONFIG.consecutiveFrames <= speechFramesRef s + 1 ->
  detector level now s =
    interrupt now
      (emit (ConsoleLog "User speech detected - triggering barge-in")
         (set_speechFramesRef (speechFramesRef s + 1) s)).
Proof.
  intros Hsp Hlv Hn. unfold detector. rewrite Hsp, Hlv.
  destruct s; simpl in *.
  destruct (REALTIME_CONFIG.consecutiveFrames <=? speechFramesRef0 + 1) eqn:E;
    [reflexivity | apply Z.leb_gt in E; lia].
Qed.

(** ** The interrupt action sequence *)

(** C1. Every interrupt request that passes the cooldown guard while the
    socket is open runs the whole action sequence in order: the time is
    recorded, [response.cancel] then [output_audio_buffer.clear] are sent,
    the current node is stopped, the queue is emptied, and the speaking flag
    and the voiced-frame count are reset; afterwards the queue is empty and
    the playing flag is off.  This holds for [interrupt] itself, for the
    Interrupt button (which calls it) and for a trigger of the detector
    (which calls it after announcing the trigger, and then sends the
    frame). *)
Theorem interrupt_action_sequence
  (parse : string -> option string) (s : State) (now : Z) :
  ws_open s = true ->
  500 <= now - lastInterruptTimeRef s ->
  let s' := interrupt now s in
  (lastInterruptTimeRef s' = now /\
   trace s' = trace s ++ action_sequence (currentAudioSourceRef s) /\
   (forall source,
      currentAudioSourceRef s = Some source -> ~ In source (sounding s')) /\
   currentAudioSourceRef s' = None /\
   audioQueueRef s' = [] /\ isPlayingRef s' = false /\
   isAssistantSpeakingRef s' = false /\ speechFramesRef s' = 0) /\
  (connected s && isAssistantSpeaking s = true ->
   step parse (ClickInterrupt now) s = s') /\
  (forall inputData,
     isAssistantSpeakingRef s = true ->
     above inputData = true ->
     REALTIME_CONFIG.consecutiveFrames <= speechFramesRef s + 1 ->
     let s'' := onaudioprocess inputData now s in
     lastInterruptTimeRef s'' = now /\
     trace s'' =
       trace s
       ++ [ConsoleLog "User speech detected - triggering barge-in"]
       ++ action_sequence (currentAudioSourceRef s)
       ++ [WsSendAudio (btoa (convertToPCM16 inputData))] /\
     (forall source,
        currentAudioSourceRef s = Some source -> ~ In source (sounding s'')) /\
     currentAudioSourceRef s'' = None /\
     audioQueueRef s'' = [] /\ isPlayingRef s'' = false /\
     isAssistantSpeakingRef s'' = false /\ speechFramesRef s'' = 0).
Proof.
  intros Hopen Hcool s'. subst s'. split; [|split].
  - rewrite (interrupt_executed now s Hopen Hcool). simpl.
    repeat split; try reflexivity.
    intros source ->. apply not_in_without.
  - intros Hbtn. simpl. now rewrite Hbtn.
  - intros inputData Hsp Habove Hn s''. subst s''.
    unfold onaudioprocess. rewrite Hopen.
    rewrite (detector_trigger _ now s Hsp Habove Hn).
    rewrite interrupt_executed.
    + destruct s; simpl in *. unfold emit; simpl.
      repeat split; try reflexivity.
      * unfold action_sequence. rewrite <- !app_assoc. reflexivity.
      * intros source ->. apply not_in_without.
    + destruct s; assumption.
    + destruct s; assumption.
Qed.

Lemma interrupt_action_sequence_witness :
  let s' := interrupt 1000000 Scenario.speaking in
  sends "response.cancel" s' = 1 /\
  sends "output_audio_buffer.clear" s' = 1 /\
  sounding s' = [] /\ audioQueueRef s' = [] /\ isPlayingRef s' = false.
Proof.
  destruct (interrupt_action_sequence Scenario.no_json Scenario.speaking
              1000000) as [(_ & _ & _ & _ & Hq & Hp & _) _].
  - vm_compute. reflexivity.
  - vm_compute. discriminate.
  - repeat split; try assumption; vm_compute; reflexivity.
Defined.

(** ** The cooldown *)

(** C2, as stated, fails.  Three clicks on the Interrupt button at 1000,
    1300 and 1600 ms: the first runs the sequence, the second is rejected,
    and the third, 300 ms after the second, runs the sequence again, since
    the window is counted from the last sequence that ran and not from
    the last request. *)
Lemma cooldown_pair_counterexample :
  let click t := step Scenario.no_json (ClickInterrupt t) in
  let s1 := click 1000 Scenario.speaking in
  let s2 := click 1300 s1 in
  let s3 := click 1600 s2 in
  1600 - 1300 < 500 /\
  s2 = s1 /\
  sends "response.cancel" s3 = sends "response.cancel" s2 + 1 /\
  sends "output_audio_buffer.clear" s3
    = sends "output_audio_buffer.clear" s2 + 1 /\
  s3 <> s2.
Proof.
  vm_compute. repeat split; try reflexivity; discriminate.
Qed.

(** C2, amended.  Of two interrupt requests less than 500 ms apart of which
    the first is executed (socket open, at least 500 ms after the last
    executed sequence), exactly one runs the action sequence: one
    [response.cancel] and one [output_audio_buffer.clear] are sent, and the
    second request changes nothing. *)
Theorem cooldown_second_request_noop (s : State) (t1 t2 : Z) :
  ws_open s = true ->
  500 <= t1 - lastInterruptTimeRef s ->
  t2 - t1 < 500 ->
  let s1 := interrupt t1 s in
  let s2 := interrupt t2 s1 in
  s2 = s1 /\
  executed s2 = executed s + 1 /\
  sends "response.cancel" s2 = sends "response.cancel" s + 1 /\
  sends "output_audio_buffer.clear" s2
    = sends "output_audio_buffer.clear" s + 1.
Proof.
  intros Hopen Hcool Hnear s1 s2.
  assert (E : s2 = s1).
  { subst s2. apply interrupt_rejected. right.
    subst s1. rewrite (interrupt_executed t1 s Hopen Hcool). simpl. exact Hnear. }
  rewrite E. subst s1. split; [reflexivity|].
  rewrite (interrupt_executed t1 s Hopen Hcool).
  destruct (currentAudioSourceRef s); repeat split; trace_count.
Qed.

Lemma cooldown_second_request_noop_witness :
  interrupt 1000100 (interrupt 1000000 Scenario.speaking)
    = interrupt 1000000 Scenario.speaking.
Proof.
  apply (cooldown_second_request_noop Scenario.speaking 1000000 1000100).
  - vm_compute. reflexivity.
  - vm_compute. discriminate.
  - vm_compute. reflexivity.
Defined.

(** ** The detector *)

Lemma triggers_emit (e : Effect) (s : State) :
  triggers (emit e s) =
    triggers s
    + count (is_log "User speech detected - triggering barge-in") [e].
Proof. unfold triggers, emit. destruct s; simpl. apply count_app. Qed.

Lemma triggers_emit_other (e : Effect) (s : State) :
  is_log "User speech detected - triggering barge-in" e = false ->
  triggers (emit e s) = triggers s.
Proof.
  intros H. rewrite triggers_emit. unfold count; simpl. rewrite H. simpl. lia.
Qed.

Lemma triggers_emit_detected (s : State) :
  triggers (emit (ConsoleLog "User speech detected - triggering barge-in") s)
    = triggers s + 1.
Proof. rewrite triggers_emit. reflexivity. Qed.

Lemma triggers_set_speechFramesRef (n : Z) (s : State) :
  triggers (set_speechFramesRef n s) = triggers s.
Proof. destruct s; reflexivity. Qed.

Lemma triggers_interrupt (now : Z) (s : State) :
  triggers (interrupt now s) = triggers s.
Proof.
  destruct (ws_open s) eqn:Hopen.
  - destruct (Z_lt_ge_dec (now - lastInterruptTimeRef s) 500) as [H|H].
    + rewrite interrupt_rejected by (right; exact H). reflexivity.
    + rewrite (interrupt_executed now s Hopen) by lia.
      destruct (currentAudioSourceRef s); trace_count.
  - rewrite interrupt_rejected by (left; exact Hopen). reflexivity.
Qed.

Lemma set_speechFramesRef_same (s : State) :
  set_speechFramesRef (speechFramesRef s) s = s.
Proof. destruct s; reflexivity. Qed.

(** A frame that does not make the detector call [interrupt]: the assistant
    is silent, or the level is not above the threshold, or the count stays
    short of the required number. *)
Lemma onaudioprocess_no_trigger
  (inputData : Float32Array) (now : Z) (s : State) :
  ws_open s = true ->
  isAssistantSpeakingRef s = false \/ above inputData = false
  \/ speechFramesRef s + 1 < REALTIME_CONFIG.consecutiveFrames ->
  onaudioprocess inputData now s =
    emit (WsSendAudio (btoa (convertToPCM16 inputData)))
      (set_speechFramesRef (next_count (above inputData) s) s).
Proof.
  intros Hopen H. unfold onaudioprocess. rewrite Hopen. f_equal.
  unfold detector, next_count. fold (above inputData).
  destruct (isAssistantSpeakingRef s) eqn:Hsp; [|reflexivity].
  destruct (above inputData) eqn:Hab.
  - destruct H as [H|[H|H]]; try discriminate.
    destruct s; simpl in *.
    destruct (REALTIME_CONFIG.consecutiveFrames <=? speechFramesRef0 + 1)
      eqn:E; [apply Z.leb_le in E; lia | reflexivity].
  - destruct (0 <? speechFramesRef s); [reflexivity|].
    symmetry. apply set_speechFramesRef_same.
Qed.

Lemma onaudioprocess_closed
  (inputData : Float32Array) (now : Z) (s : State) :
  ws_open s = false -> onaudioprocess inputData now s = s.
Proof. intros H. unfold onaudioprocess. now rewrite H. Qed.

(** A frame that makes the detector call [interrupt] adds exactly one
    trigger. *)
Lemma onaudioprocess_trigger
  (inputData : Float32Array) (now : Z) (s : State) :
  ws_open s = true ->
  isAssistantSpeakingRef s = true ->
  above inputData = true ->
  REALTIME_CONFIG.consecutiveFrames <= speechFramesRef s + 1 ->
  onaudioprocess inputData now s =
    emit (WsSendAudio (btoa (convertToPCM16 inputData)))
      (interrupt now
         (emit (ConsoleLog "User speech detected - triggering barge-in")
            (set_speechFramesRef (speechFramesRef s + 1) s))).
Proof.
  intros Hopen Hsp Hab Hn. unfold onaudioprocess. rewrite Hopen.
  now rewrite (detector_trigger _ now s Hsp Hab Hn).
Qed.

Lemma triggers_no_trigger
  (inputData : Float32Array) (now : Z) (s : State) :
  isAssistantSpeakingRef s = false \/ above inputData = false
  \/ speechFramesRef s + 1 < REALTIME_CONFIG.consecutiveFrames ->
  triggers (onaudioprocess inputData now s) = triggers s.
Proof.
  intros H. destruct (ws_open s) eqn:Hopen.
  - rewrite (onaudioprocess_no_trigger _ now s Hopen H).
    rewrite triggers_emit_other by reflexivity.
    apply triggers_set_speechFramesRef.
  - now rewrite onaudioprocess_closed.
Qed.

Lemma feed_cons (f : Float32Array * Z) (frames : list (Float32Array * Z))
  (s : State) :
  feed (f :: frames) s = feed frames (onaudioprocess (fst f) (snd f) s).
Proof. reflexivity. Qed.

(** C3, as stated, fails.  The frames count from whatever
    [speechFramesRef] holds, and a trigger that the cooldown rejects leaves
    it at 2 or more.  The assistant speaks again 100 ms after an executed
    interrupt; two loud frames follow, the second emits a trigger that the
    cooldown rejects, and a quiet frame brings the count down to 1 only.
    From there one loud frame followed by a quiet one emits a trigger (and
    the interrupt runs, the cooldown being over), and two loud frames
    inside the cooldown emit two triggers. *)
Lemma isolated_frame_counterexample :
  let s := run Scenario.no_json
             [ClickInterrupt 1000000;
              SocketMessage (Scenario.message "response.created");
              AudioProcess Scenario.loud 1000100;
              AudioProcess Scenario.loud 1000200;
              AudioProcess Scenario.silent 1000300]
             Scenario.speaking in
  REALTIME_CONFIG.consecutiveFrames = 2 /\
  above Scenario.loud = true /\ above Scenario.silent = false /\
  turnState s = AssistantTurn /\ speechFramesRef s = 1 /\
  (let s' := feed [(Scenario.loud, 1000600); (Scenario.silent, 1000700)] s in
   triggers s' = triggers s + 1 /\ executed s' = executed s + 1) /\
  (let s' := feed [(Scenario.loud, 1000350); (Scenario.loud, 1000400)] s in
   turnState (onaudioprocess Scenario.loud 1000350 s) = AssistantTurn /\
   triggers s' = triggers s + 2).
Proof. vm_compute. repeat split; reflexivity. Qed.

(** C3, amended.  With two consecutive frames required: frames whose level
    is never above the threshold emit no trigger, whatever the state and the
    count; starting from a count of zero, one frame above the threshold
    followed by one that is not emits no trigger, and two frames above it,
    processed while the assistant speaks, emit exactly one. *)
Theorem detector_consecutive_frames :
  REALTIME_CONFIG.consecutiveFrames = 2 /\
  (forall frames s,
     (forall f, In f frames -> above (fst f) = false) ->
     triggers (feed frames s) = triggers s) /\
  (forall s f1 n1 f2 n2,
     speechFramesRef s = 0 ->
     above f1 = true -> above f2 = false ->
     triggers (feed [(f1, n1); (f2, n2)] s) = triggers s) /\
  (forall s f1 n1 f2 n2,
     ws_open s = true -> isAssistantSpeakingRef s = true ->
     speechFramesRef s = 0 ->
     above f1 = true -> above f2 = true ->
     triggers (feed [(f1, n1); (f2, n2)] s) = triggers s + 1).
Proof.
  split; [reflexivity|]. split; [|split].
  - induction frames as [|f frames IH]; intros s Hall; [reflexivity|].
    rewrite feed_cons, IH.
    + apply triggers_no_trigger. right; left. apply Hall. now left.
    + intros g Hg. apply Hall. now right.
  - intros s f1 n1 f2 n2 H0 H1 H2. rewrite !feed_cons. simpl feed. simpl fst.
    simpl snd. rewrite triggers_no_trigger by (right; left; exact H2).
    apply triggers_no_trigger. right; right. rewrite H0. reflexivity.
  - intros s f1 n1 f2 n2 Hopen Hsp H0 H1 H2. rewrite !feed_cons. simpl.
    rewrite (onaudioprocess_no_trigger f1 n1 s Hopen)
      by (right; right; rewrite H0; reflexivity).
    rewrite H1. unfold next_count. rewrite Hsp, H0. simpl Z.add.
    rewrite onaudioprocess_trigger.
    + rewrite triggers_emit_other by reflexivity.
      rewrite triggers_interrupt, triggers_emit_detected.
      rewrite !triggers_set_speechFramesRef.
      rewrite triggers_emit_other by reflexivity.
      now rewrite triggers_set_speechFramesRef.
    + destruct s; exact Hopen.
    + destruct s; exact Hsp.
    + exact H2.
    + destruct s; simpl. vm_compute. discriminate.
Qed.

Lemma detector_consecutive_frames_witness :
  speechFramesRef Scenario.speaking = 0 /\
  triggers
    (feed [(Scenario.loud, 1000000); (Scenario.silent, 1000100)]
       Scenario.speaking)
  = triggers Scenario.speaking /\
  triggers
    (feed [(Scenario.loud, 1000000); (Scenario.loud, 1000100)]
       Scenario.speaking)
  = triggers Scenario.speaking + 1.
Proof.
  destruct detector_consecutive_frames as (_ & _ & H2 & H3).
  split; [vm_compute; reflexivity|]. split.
  - apply H2; vm_compute; reflexivity.
  - apply H3; vm_compute; reflexivity.
Defined.

(** C4, as stated, fails for [Idle].  One loud frame is counted while the
    assistant speaks, then the socket closes.  The callback still fires, but
    its body is skipped when the socket is not open: the next frame leaves
    the count at 1. *)
Lemma idle_keeps_count_counterexample :
  let s := run Scenario.no_json
             [AudioProcess Scenario.loud 1000000; SocketClose]
             Scenario.speaking in
  let s' := onaudioprocess Scenario.loud 1000100 s in
  turnState s = Idle /\ speechFramesRef s = 1 /\
  above Scenario.loud = true /\
  triggers s' = triggers s /\ speechFramesRef s' = 1.
Proof. vm_compute. repeat split; reflexivity. Qed.

(** C4, amended.  A frame processed while the turn is not the assistant's
    emits no trigger, however loud it is.  With the socket open (the user's
    turn) it sets the voiced-frame count to 0; with no open socket ([Idle])
    the callback returns at once, nothing is emitted and nothing changes,
    the count included. *)
Theorem detector_dormant (inputData : Float32Array) (now : Z) (s : State) :
  In (turnState s) [Idle; UserTurn; Interrupting] ->
  let s' := onaudioprocess inputData now s in
  triggers s' = triggers s /\
  executed s' = executed s /\
  (ws_open s = true -> speechFramesRef s' = 0) /\
  (ws_open s = false -> s' = s).
Proof.
  intros Hturn s'. subst s'. unfold turnState in Hturn.
  destruct (ws_open s) eqn:Hopen.
  - destruct (isAssistantSpeakingRef s) eqn:Hsp.
    + simpl in Hturn. intuition discriminate.
    + rewrite (onaudioprocess_no_trigger inputData now s Hopen)
        by (left; exact Hsp).
      unfold next_count. rewrite Hsp.
      split; [|split; [|split]].
      * rewrite triggers_emit_other by reflexivity.
        apply triggers_set_speechFramesRef.
      * trace_count.
      * intros _. destruct s; reflexivity.
      * discriminate.
  - rewrite onaudioprocess_closed by exact Hopen.
    split; [|split; [|split]]; try reflexivity. discriminate.
Qed.

Lemma detector_dormant_witness :
  let s := run Scenario.no_json
             [AudioProcess Scenario.loud 1000000;
              SocketMessage (Scenario.message "response.done")]
             Scenario.speaking in
  let s' := onaudioprocess Scenario.loud 1000100 s in
  above Scenario.loud = true /\ turnState s = UserTurn /\
  speechFramesRef s = 1 /\ triggers s' = triggers s /\
  speechFramesRef s' = 0.
Proof.
  intros s s'.
  destruct (detector_dormant Scenario.loud 1000100 s) as (Ht & _ & H0 & _).
  - vm_compute. right. left. reflexivity.
  - split; [vm_compute; reflexivity|].
    split; [vm_compute; reflexivity|].
    split; [vm_compute; reflexivity|].
    split; [exact Ht|].
    apply H0. vm_compute. reflexivity.
Defined.

(** C5, as stated, fails.  The assistant speaks again 100 ms after an
    executed interrupt; two loud frames follow.  The second one brings the
    count to 2 and emits a trigger, the cooldown rejects it, and the count
    stays at 2; the next loud frame emits a trigger again. *)
Lemma trigger_without_reset_counterexample :
  let s0 := interrupt 1000000 Scenario.speaking in
  let s1 := step Scenario.no_json
              (SocketMessage (Scenario.message "response.created")) s0 in
  let s2 := onaudioprocess Scenario.loud 1000100 s1 in
  let s3 := onaudioprocess Scenario.loud 1000200 s2 in
  let s4 := onaudioprocess Scenario.loud 1000300 s3 in
  triggers s3 = triggers s2 + 1 /\
  executed s3 = executed s2 /\
  speechFramesRef s3 = 2 /\
  triggers s4 = triggers s3 + 1 /\
  speechFramesRef s4 = 3.
Proof. vm_compute. repeat split; reflexivity. Qed.

(** C5, amended.  Whenever the count reaches the required number on a frame
    above the threshold (socket open, assistant speaking), the detector
    emits a trigger.  The count goes back to 0 when the trigger is executed
    (the cooldown has elapsed); when the cooldown rejects the trigger the
    count keeps its incremented value. *)
Theorem trigger_resets_count_when_executed
  (inputData : Float32Array) (now : Z) (s : State) :
  ws_open s = true ->
  isAssistantSpeakingRef s = true ->
  above inputData = true ->
  REALTIME_CONFIG.consecutiveFrames <= speechFramesRef s + 1 ->
  let s' := onaudioprocess inputData now s in
  triggers s' = triggers s + 1 /\
  (500 <= now - lastInterruptTimeRef s ->
   executed s' = executed s + 1 /\ speechFramesRef s' = 0) /\
  (now - lastInterruptTimeRef s < 500 ->
   executed s' = executed s /\ speechFramesRef s' = speechFramesRef s + 1).
Proof.
  intros Hopen Hsp Hab Hn s'. subst s'.
  rewrite (onaudioprocess_trigger inputData now s Hopen Hsp Hab Hn).
  split; [|split].
  - rewrite triggers_emit_other by reflexivity.
    rewrite triggers_interrupt, triggers_emit_detected.
    now rewrite triggers_set_speechFramesRef.
  - intros Hcool. rewrite interrupt_executed.
    + split; [|reflexivity].
      trace_count.
    + destruct s; exact Hopen.
    + destruct s; exact Hcool.
  - intros Hcool. rewrite interrupt_rejected.
    + split; [trace_count | reflexivity].
    + right. destruct s; exact Hcool.
Qed.

Lemma trigger_resets_count_when_executed_witness :
  let s := onaudioprocess Scenario.loud 1000000 Scenario.speaking in
  let s' := onaudioprocess Scenario.loud 1000100 s in
  triggers s' = triggers s + 1.
Proof.
  intros s s'.
  apply (trigger_resets_count_when_executed Scenario.loud 1000100 s);
    vm_compute; (reflexivity || discriminate).
Defined.

(** ** The playback queue *)

(** C6 fails on this run.  Chunk A is playing when the Interrupt button is
    clicked; [interrupt] stops A's node and clears [isPlayingRef], but the
    loop that awaits A's [ended] event is still suspended.  A trailing chunk
    B arrives before that event: [isPlayingRef] is false, so a second loop
    starts and B sounds.  A's event then resumes the first loop, which finds
    the queue empty and clears [isPlayingRef] while B is sounding.  The
    next chunk C starts a third loop at once: B and C sound together. *)
Theorem overlap_after_interrupt :
  let s1 := Scenario.session
              [SocketMessage (Scenario.message "response.created");
               SocketMessage (Scenario.audio Scenario.chunkA)] in
  let s2 := step Scenario.no_json (ClickInterrupt 1000000) s1 in
  let s3 := step Scenario.no_json
              (SocketMessage (Scenario.audio Scenario.chunkB)) s2 in
  let s4 := step Scenario.no_json (SourceEnded (Scenario.node 0)) s3 in
  let s5 := step Scenario.no_json
              (SocketMessage (Scenario.audio Scenario.chunkC)) s4 in
  sounding s1 = [Scenario.node 0] /\
  (sounding s2 = [] /\ isPlayingRef s2 = false
   /\ awaiting s2 = [Scenario.node 0]) /\
  (sounding s3 = [Scenario.node 1] /\ isPlayingRef s3 = true) /\
  (sounding s4 = [Scenario.node 1] /\ isPlayingRef s4 = false) /\
  sounding s5 = [Scenario.node 2; Scenario.node 1] /\
  started s5 = [{| ident := 0; samples := [1] |};
                {| ident := 1; samples := [2] |};
                {| ident := 2; samples := [3] |}].
Proof. vm_compute. repeat split; reflexivity. Qed.

(** C7, as stated, fails.  After an executed interrupt the turn is the
    user's; a chunk that arrives then is not discarded: the handler sets the
    speaking flag and the chunk starts playing. *)
Lemma late_chunk_counterexample :
  let s := interrupt 1000000 Scenario.speaking in
  let s' := step Scenario.no_json
              (SocketMessage (Scenario.audio Scenario.chunkA)) s in
  turnState s = UserTurn /\ sounding s = [] /\
  turnState s' = AssistantTurn /\
  started s' = started s ++ [{| ident := 3; samples := [1] |}] /\
  sounding s' = [Scenario.node 1].
Proof. vm_compute. repeat split; reflexivity. Qed.

(** C7, amended.  The receipt of an audio chunk itself puts the page in the
    assistant's turn: the handler sets the speaking flag, whatever it was,
    and then enqueues the chunk, so a chunk is only ever enqueued with the
    flag set.  A decodable, non-empty chunk is never discarded on arrival:
    after the handler it is in the queue or it has been started. *)
Theorem audio_delta_sets_flag_and_enqueues
  (parse : string -> option string) (data : ServerEvent) (s : State)
  (bytes values : list Z) :
  type data = "response.audio.delta" ->
  atob (delta data) = Some bytes ->
  Int16Array_of_buffer bytes = Some values ->
  values <> [] ->
  let s' := ws_onmessage parse data s in
  let pcm16 := {| ident := nextArray s; samples := values |} in
  isAssistantSpeakingRef s' = true /\
  turnState s' = (if ws_open s then AssistantTurn else Idle) /\
  (In pcm16 (audioQueueRef s')
   \/ exists source, In (SourceStart source pcm16) (trace s')).
Proof.
  intros Hty Hatob Hview Hne s' pcm16. subst s' pcm16.
  unfold ws_onmessage. rewrite Hty. simpl.
  unfold playAudioDelta. rewrite Hatob, Hview.
  assert (Hlen : Nat.eqb (List.length (toFloat32 values)) 0 = false).
  { unfold toFloat32. rewrite length_map.
    destruct values; [congruence | reflexivity]. }
  unfold turnState, ws_open.
  destruct s; simpl.
  destruct isPlayingRef0; simpl.
  - split; [reflexivity|]. split; [reflexivity|].
    left. apply in_or_app. right. now left.
  - unfold playAudioQueue; simpl.
    destruct audioContextRef0 as [ctx|]; simpl.
    + destruct audioQueueRef0 as [|h t]; simpl.
      * unfold iteration; simpl. rewrite Hlen. simpl.
        split; [reflexivity|]. split; [reflexivity|].
        right. eexists. apply in_or_app; right; left; reflexivity.
      * unfold iteration; simpl.
        destruct (Nat.eqb (List.length (toFloat32 (samples h))) 0); simpl.
        -- split; [reflexivity|]. split; [reflexivity|].
           left. apply in_or_app. right. now left.
        -- split; [reflexivity|]. split; [reflexivity|].
           left. apply in_or_app. right. now left.
    + split; [reflexivity|]. split; [reflexivity|].
      left. apply in_or_app. right. now left.
Qed.

Lemma audio_delta_sets_flag_and_enqueues_witness :
  let s := interrupt 1000000 Scenario.speaking in
  isAssistantSpeakingRef
    (ws_onmessage Scenario.no_json (Scenario.audio Scenario.chunkA) s) = true.
Proof.
  intros s.
  apply (audio_delta_sets_flag_and_enqueues Scenario.no_json
           (Scenario.audio Scenario.chunkA) s [1; 0] [1]);
    (reflexivity || discriminate).
Defined.

(** ** Transport faults *)

(** C8 fails on the code: [ws.onclose] clears [connected] and
    [isListening] and [ws.onerror] records an error, and neither touches
    the playback queue, the playing node or the detector state, although
    the Disconnect button does ([onConnect] calls [interrupt] and clears
    the speaking flag).  In the session below A is sounding, B and C are
    queued and one loud frame has been counted when the socket closes:
    the turn becomes [Idle], yet A keeps sounding, B and C stay queued, and
    the speaking flag and the count keep their values. *)
Theorem transport_fault_leaves_playback
  (parse : string -> option string) (s : State) :
  let kept s' :=
    audioQueueRef s' = audioQueueRef s /\
    isPlayingRef s' = isPlayingRef s /\
    currentAudioSourceRef s' = currentAudioSourceRef s /\
    sounding s' = sounding s /\
    awaiting s' = awaiting s /\
    isAssistantSpeakingRef s' = isAssistantSpeakingRef s /\
    speechFramesRef s' = speechFramesRef s in
  (kept (step parse SocketClose s) /\
   turnState (step parse SocketClose s) = Idle) /\
  kept (step parse SocketError s) /\
  let s0 := onaudioprocess Scenario.loud 1000000 Scenario.speaking in
  let s1 := step Scenario.no_json SocketClose s0 in
  turnState s1 = Idle /\
  sounding s1 = [Scenario.node 0] /\
  List.length (audioQueueRef s1) = 2%nat /\
  isPlayingRef s1 = true /\
  isAssistantSpeakingRef s1 = true /\
  speechFramesRef s1 = 1.
Proof.
  split; [|split].
  - destruct s; simpl. repeat split; reflexivity.
  - destruct s; simpl. repeat split; reflexivity.
  - vm_compute. repeat split; reflexivity.
Qed.

(** ** A chunk that cannot be played *)

Lemma run_cons (parse : string -> option string) (e : Event)
  (events : list Event) (s : State) :
  run parse (e :: events) s = run parse events (step parse e s).
Proof. reflexivity. Qed.

Lemma run_app (parse : string -> option string) (l1 l2 : list Event)
  (s : State) :
  run parse (l1 ++ l2) s = run parse l2 (run parse l1 s).
Proof. unfold run. apply fold_left_app. Qed.

Lemma playAudioDelta_while_playing (payload : string) (s : State) :
  isPlayingRef s = true ->
  let s' := playAudioDelta payload s in
  isPlayingRef s' = true /\ started s' = started s /\
  awaiting s' = awaiting s /\ sounding s' = sounding s.
Proof.
  intros Hp. unfold playAudioDelta.
  destruct (atob payload) as [bytes|].
  - destruct (Int16Array_of_buffer bytes) as [values|].
    + destruct s; simpl in *. rewrite Hp. simpl. repeat split; reflexivity.
    + destruct s; simpl in *. unfold started; simpl.
      rewrite started_in_app. simpl. rewrite app_nil_r.
      repeat split; try reflexivity. exact Hp.
  - destruct s; simpl in *. unfold started; simpl.
    rewrite started_in_app. simpl. rewrite app_nil_r.
    repeat split; try reflexivity. exact Hp.
Qed.

(** While [isPlayingRef] is set and no loop is suspended, audio chunks are
    queued and none is ever started. *)
Lemma audio_while_stalled
  (parse : string -> option string) (payloads : list string) (s : State) :
  isPlayingRef s = true ->
  let s' :=
    run parse (map (fun d => SocketMessage (Scenario.audio d)) payloads) s in
  isPlayingRef s' = true /\ started s' = started s /\
  awaiting s' = awaiting s /\ sounding s' = sounding s.
Proof.
  revert s. induction payloads as [|d payloads IH]; intros s Hp; cbv zeta.
  - simpl. repeat split; try reflexivity. exact Hp.
  - simpl map. rewrite run_cons.
    change (step parse (SocketMessage (Scenario.audio d)) s)
      with (playAudioDelta d (set_isAssistantSpeakingRef true s)).
    destruct (playAudioDelta_while_playing d
                (set_isAssistantSpeakingRef true s))
      as (H1 & H2 & H3 & H4); [destruct s; exact Hp|].
    destruct (IH _ H1) as (I1 & I2 & I3 & I4).
    rewrite I1, I2, I3, I4, H2, H3, H4.
    destruct s; repeat split; reflexivity.
Qed.

(** C9 fails on the code.  An audio chunk with an empty payload decodes to
    an [Int16Array] of length 0; [createBuffer] throws inside the async
    [playAudioQueue], whose promise nobody awaits, so the [catch] of
    [playAudioDelta] does not see it and nothing is logged there.  The loop
    is gone with [isPlayingRef] still set: whatever chunks arrive
    afterwards are queued and none is ever started. *)
Theorem empty_chunk_stalls_queue (payloads : list string) :
  let s := Scenario.session [SocketMessage (Scenario.audio "")] in
  let s' :=
    run Scenario.no_json
      (map (fun d => SocketMessage (Scenario.audio d)) payloads) s in
  trace s = [ConnectWithWebSocket; WsSendSessionUpdate; InitializeAudio;
             UnhandledRejection "NotSupportedError"] /\
  (isPlayingRef s = true /\ awaiting s = [] /\ audioQueueRef s = []) /\
  (isPlayingRef s' = true /\ started s' = [] /\ sounding s' = []) /\
  List.length
    (audioQueueRef
       (run Scenario.no_json
          [SocketMessage (Scenario.audio Scenario.chunkA);
           SocketMessage (Scenario.audio Scenario.chunkB)] s)) = 2%nat.
Proof.
  intros s s'.
  split; [vm_compute; reflexivity|].
  split; [vm_compute; repeat split; reflexivity|].
  split; [|vm_compute; reflexivity].
  destruct (audio_while_stalled Scenario.no_json payloads s)
    as (H1 & H2 & _ & H4); [vm_compute; reflexivity|].
  subst s'. rewrite H1, H2, H4. vm_compute. repeat split; reflexivity.
Qed.

(** ** The PCM16 codec *)

Lemma in_zrange (n : nat) (lo v : Z) :
  lo <= v < lo + Z.of_nat n -> In v (zrange n lo).
Proof.
  revert lo. induction n as [|n IH]; intros lo H.
  - simpl in H. lia.
  - simpl. destruct (Z.eq_dec lo v) as [->|Hne]; [now left|].
    right. apply IH. lia.
Qed.


Lemma SFcompare_antisym (a b : number) (c : comparison) :
  SFcompare a b = Some c -> SFcompare b a = Some (CompOpp c).
Proof.
  destruct a as [sa|sa| |sa ma ea], b as [sb|sb| |sb mb eb]; simpl;
    try discriminate;
    try (intros H; inversion H; subst; clear H;
         repeat match goal with b : bool |- _ => destruct b end;
         reflexivity).
  intros H. inversion H; subst; clear H. f_equal.
  change (PosDef.Pos.compare_cont Eq mb ma) with (Pos.compare mb ma).
  change (PosDef.Pos.compare_cont Eq ma mb) with (Pos.compare ma mb).
  rewrite (Z.compare_antisym ea eb), (Pos.compare_antisym ma mb).
  destruct sa, sb, (ea ?= eb), (ma ?= mb)%positive; reflexivity.
Qed.

Lemma SFcompare_finite_Eq s m e (x : number) :
  SFcompare (S754_finite s m e) x = Some Eq -> x = S754_finite s m e.
Proof.
  destruct x as [sx|sx| |sx mx ex]; simpl; try discriminate.
  - destruct s; discriminate.
  - destruct sx, s; discriminate.
  - intros H. inversion H as [H1]. clear H.
    destruct s, sx; try discriminate.
    + destruct (e ?= ex) eqn:E; try discriminate.
      apply Z.compare_eq in E. subst.
      change (PosDef.Pos.compare_cont Eq m mx) with (Pos.compare m mx) in H1.
      destruct (m ?= mx)%positive eqn:M; try discriminate.
      apply Pos.compare_eq in M. now subst.
    + destruct (e ?= ex) eqn:E; try discriminate.
      apply Z.compare_eq in E. subst.
      change (PosDef.Pos.compare_cont Eq m mx) with (Pos.compare m mx) in H1.
      destruct (m ?= mx)%positive eqn:M; try discriminate.
      apply Pos.compare_eq in M. now subst.
Qed.










(** * Further properties of the page *)

(** ** The order of playback *)

Lemma sub_refl {A} (l : list A) : sub l l.
Proof. induction l; [apply sub_nil | apply sub_keep; auto]. Qed.

Lemma sub_nil_l {A} (l : list A) : sub [] l.
Proof. induction l; constructor; auto. Qed.

Lemma sub_app {A} (a b c d : list A) : sub a b -> sub c d -> sub (a ++ c) (b ++ d).
Proof.
  induction 1; simpl; intros; auto; [apply sub_skip | apply sub_keep]; auto.
Qed.

Lemma sub_In {A} (l1 l2 : list A) x : sub l1 l2 -> In x l1 -> In x l2.
Proof. induction 1; simpl; intuition. Qed.

Lemma sub_Forall {A} (P : A -> Prop) (l1 l2 : list A) :
  sub l1 l2 -> Forall P l2 -> Forall P l1.
Proof.
  induction 1 as [|x l1 l2 Hs IH|x l1 l2 Hs IH]; intros HF; auto;
    inversion HF; subst; auto.
Qed.

Lemma sub_map {A B} (f : A -> B) (l1 l2 : list A) :
  sub l1 l2 -> sub (map f l1) (map f l2).
Proof.
  induction 1; simpl; [apply sub_nil | apply sub_skip | apply sub_keep]; auto.
Qed.

Lemma sub_StronglySorted {A} (R : A -> A -> Prop) (l1 l2 : list A) :
  sub l1 l2 -> StronglySorted R l2 -> StronglySorted R l1.
Proof.
  induction 1 as [|x l1 l2 Hs IH|x l1 l2 Hs IH]; intros HS; auto.
  - inversion HS; subst. auto.
  - inversion HS; subst. constructor; auto.
    eapply sub_Forall; eauto.
Qed.

Lemma sub_trans {A} (a b c : list A) : sub a b -> sub b c -> sub a c.
Proof.
  intros Hab Hbc. revert a Hab.
  induction Hbc as [|x l1 l2 Hs IH|x l1 l2 Hs IH]; intros a Hab.
  - exact Hab.
  - apply sub_skip. auto.
  - inversion Hab; subst.
    + apply sub_skip. auto.
    + apply sub_keep. auto.
Qed.

Lemma chunk_step_same s s' :
  started s' = started s -> audioQueueRef s' = audioQueueRef s ->
  nextArray s' = nextArray s -> chunk_step s s'.
Proof.
  intros H1 H2 H3. exists [], []. split; [reflexivity|].
  split; [simpl; lia|]. split.
  - now rewrite app_nil_r.
  - simpl. rewrite H2, app_nil_r. apply sub_refl.
Qed.

Lemma chunk_step_refl s : chunk_step s s.
Proof. now apply chunk_step_same. Qed.

Lemma chunk_step_trans s s1 s2 :
  chunk_step s s1 -> chunk_step s1 s2 -> chunk_step s s2.
Proof.
  intros (p1 & m1 & Hi1 & Hn1 & Hs1 & Hsub1) (p2 & m2 & Hi2 & Hn2 & Hs2 & Hsub2).
  exists (p1 ++ p2), (m1 ++ m2). split; [|split; [|split]].
  - rewrite map_app, length_app, seq_app, Hi1, Hi2, Hn1. reflexivity.
  - rewrite length_app. lia.
  - rewrite Hs2, Hs1. now rewrite app_assoc.
  - apply sub_trans with (m1 ++ audioQueueRef s1 ++ p2).
    + rewrite <- app_assoc. apply sub_app; [apply sub_refl | exact Hsub2].
    + rewrite !app_assoc. apply sub_app; [exact Hsub1 | apply sub_refl].
Qed.

Lemma started_emit e s :
  started (emit e s) = started s ++ started_in [e].
Proof. unfold started, emit. destruct s; simpl. apply started_in_app. Qed.

Ltac same_chunks :=
  apply chunk_step_same;
  [ unfold started, emit; simpl; rewrite ?started_in_app; simpl;
    rewrite ?app_nil_r; reflexivity
  | reflexivity | reflexivity ].

Lemma chunk_step_interrupt now s : chunk_step s (interrupt now s).
Proof.
  destruct (ws_open s) eqn:Hopen.
  - destruct (Z_lt_ge_dec (now - lastInterruptTimeRef s) 500) as [H|H].
    + rewrite interrupt_rejected by (right; exact H). apply chunk_step_refl.
    + rewrite (interrupt_executed now s Hopen) by lia.
      exists [], []. split; [reflexivity|]. split; [simpl; lia|]. split.
      * unfold started; simpl. rewrite started_in_app, app_nil_r.
        unfold action_sequence.
        destruct (currentAudioSourceRef s); simpl; now rewrite app_nil_r.
      * simpl. apply sub_nil_l.
  - rewrite interrupt_rejected by (left; exact Hopen). apply chunk_step_refl.
Qed.

Lemma chunk_step_iteration ctx s : chunk_step s (iteration ctx s).
Proof.
  unfold iteration. destruct (audioQueueRef s) as [|h t] eqn:Q.
  - destruct s; same_chunks.
  - destruct (Nat.eqb _ 0).
    + exists [], []. split; [reflexivity|]. split; [destruct s; simpl; lia|].
      rewrite started_emit. simpl. rewrite !app_nil_r.
      destruct s; simpl in *. subst.
      split; [reflexivity | apply sub_skip, sub_refl].
    + exists [], [h]. split; [reflexivity|]. split; [destruct s; simpl; lia|].
      destruct s; simpl in *. subst. unfold started; simpl.
      rewrite started_in_app, app_nil_r. simpl.
      split; [reflexivity | apply sub_refl].
Qed.

Lemma chunk_step_playAudioQueue s : chunk_step s (playAudioQueue s).
Proof.
  unfold playAudioQueue.
  destruct (audioContextRef s); [|destruct s; same_chunks].
  destruct (audioQueueRef s) eqn:Q; [destruct s; same_chunks|].
  eapply chunk_step_trans; [|apply chunk_step_iteration].
  destruct s; same_chunks.
Qed.

Lemma chunk_step_playAudioDelta payload s :
  chunk_step s (playAudioDelta payload s).
Proof.
  unfold playAudioDelta.
  destruct (atob payload) as [bytes|]; [|destruct s; same_chunks].
  destruct (Int16Array_of_buffer bytes) as [values|];
    [|destruct s; same_chunks].
  set (s1 := set_audioQueueRef _ _).
  assert (H : chunk_step s s1).
  { exists [{| ident := nextArray s; samples := values |}], [].
    split; [reflexivity|]. split; [destruct s; simpl; lia|].
    split; [destruct s; unfold started; simpl; now rewrite app_nil_r|].
    destruct s; simpl. apply sub_refl. }
  destruct (negb (isPlayingRef s1)); [|exact H].
  eapply chunk_step_trans; [exact H | apply chunk_step_playAudioQueue].
Qed.

Lemma chunk_step_source_onended source s :
  chunk_step s (source_onended source s).
Proof.
  unfold source_onended.
  destruct (existsb _ _); [|apply chunk_step_refl].
  unfold resume.
  eapply chunk_step_trans; [|apply chunk_step_iteration].
  destruct (currentAudioSourceRef _) as [c|];
    [destruct (SourceNode_eqb c source)|]; destruct s; same_chunks.
Qed.

Lemma chunk_step_onaudioprocess inputData now s :
  chunk_step s (onaudioprocess inputData now s).
Proof.
  unfold onaudioprocess. destruct (ws_open s); [|apply chunk_step_refl].
  apply chunk_step_trans with (detector (average inputData) now s);
    [|generalize (detector (average inputData) now s); intros s1;
      destruct s1; same_chunks].
  unfold detector.
  destruct (isAssistantSpeakingRef s); [|destruct s; same_chunks].
  destruct (gtb _ _).
  - destruct (_ <=? _); [|destruct s; same_chunks].
    eapply chunk_step_trans; [|apply chunk_step_interrupt].
    destruct s; same_chunks.
  - destruct (0 <? _); [destruct s; same_chunks | apply chunk_step_refl].
Qed.

Lemma chunk_step_onConnect now s : chunk_step s (onConnect now s).
Proof.
  unfold onConnect. destruct (connected s); [|destruct s; same_chunks].
  eapply chunk_step_trans; [apply (chunk_step_interrupt now s)|].
  generalize (interrupt now s); intros s1.
  unfold context_close, ws_close.
  destruct s1 as [? ? ? ? ? ? [[]|] [?|] [?|] ? ? ? ? ? ? ? ? ? ? ? ? ? ?];
    same_chunks.
Qed.

Lemma chunk_step_handleFunctionCall parse callId name args s :
  chunk_step s (handleFunctionCall parse callId name args s).
Proof.
  unfold handleFunctionCall, handleFunctionCall_catch, update_messages.
  destruct (parse args); [destruct (String.eqb _ _); [|destruct (String.eqb _ _)]|];
    simpl; try (destruct s; same_chunks);
    destruct (ws_open _); destruct s; same_chunks.
Qed.

Lemma chunk_step_step parse e s : chunk_step s (step parse e s).
Proof.
  destruct e; simpl.
  - apply chunk_step_onConnect.
  - destruct (connected s && isAssistantSpeaking s);
      [apply chunk_step_interrupt | apply chunk_step_refl].
  - destruct s; same_chunks.
  - destruct s; same_chunks.
  - destruct s; same_chunks.
  - unfold ws_onmessage.
    repeat match goal with
           | |- context [String.eqb ?a ?b] => destruct (String.eqb a b)
           end; simpl;
      try (destruct s; same_chunks).
    + eapply chunk_step_trans; [|apply chunk_step_playAudioDelta].
      destruct s; same_chunks.
    + eapply chunk_step_trans; [|apply chunk_step_handleFunctionCall].
      destruct s; same_chunks.
  - destruct s; same_chunks.
  - destruct s; same_chunks.
  - destruct s; same_chunks.
  - destruct s; same_chunks.
  - apply chunk_step_onaudioprocess.
  - apply chunk_step_source_onended.
  - unfold handleFunctionCall_result, send_function_output.
    destruct (ws_open _); destruct s; same_chunks.
Qed.

Lemma chunk_step_run parse events s : chunk_step s (run parse events s).
Proof.
  revert s. induction events as [|e events IH]; intros s.
  - apply chunk_step_refl.
  - rewrite run_cons. eapply chunk_step_trans; [apply chunk_step_step | apply IH].
Qed.

Lemma StronglySorted_app_seq (l : list nat) (n k : nat) :
  StronglySorted lt l -> Forall (fun i => (i < n)%nat) l ->
  StronglySorted lt (l ++ seq n k).
Proof.
  induction l as [|x l IH]; intros HS HF; simpl.
  - clear. revert n. induction k as [|k IH]; intros n; simpl; constructor.
    + apply IH.
    + apply Forall_forall. intros y Hy. apply in_seq in Hy. lia.
  - inversion HS; subst. inversion HF; subst. constructor; [auto|].
    apply Forall_app. split; [assumption|].
    apply Forall_forall. intros y Hy. apply in_seq in Hy. lia.
Qed.

Lemma ordered_chunk_step (s s' : State) :
  chunk_step s s' -> ordered s -> ordered s'.
Proof.
  intros (pushed & moved & Hi & Hn & Hs & Hsub) [HS HF].
  assert (Hsub' : sub (map ident (started s' ++ audioQueueRef s'))
                      (map ident (started s ++ audioQueueRef s)
                       ++ seq (nextArray s) (List.length pushed))).
  { rewrite Hs, <- Hi, <- map_app, <- !app_assoc. apply sub_map.
    apply sub_app; [apply sub_refl | exact Hsub]. }
  split.
  - eapply sub_StronglySorted; [exact Hsub'|].
    now apply StronglySorted_app_seq.
  - eapply sub_Forall; [exact Hsub'|]. apply Forall_app. split.
    + eapply Forall_impl; [|exact HF]. simpl. intros; lia.
    + apply Forall_forall. intros y Hy. apply in_seq in Hy. lia.
Qed.

Lemma ordered_initial : ordered initial.
Proof. split; constructor. Qed.

Lemma ordered_run parse events : ordered (run parse events initial).
Proof.
  eapply ordered_chunk_step; [apply chunk_step_run | apply ordered_initial].
Qed.

(** X1. In every run of the page the chunks are handed to the audio device
    in the order of their arrival, and none is handed over twice. *)
Theorem playback_follows_arrival_order
  (parse : string -> option string) (events : list Event) :
  let s := run parse events initial in
  StronglySorted lt (map ident (started s)) /\
  (forall queued, In queued (audioQueueRef s) ->
     Forall (fun played => (ident played < ident queued)%nat) (started s)).
Proof.
  intros s. destruct (ordered_run parse events) as [HS _]. fold s in HS.
  rewrite map_app in HS. split.
  - eapply sub_StronglySorted; [|exact HS].
    rewrite <- (app_nil_r (map ident (started s))) at 1.
    apply sub_app; [apply sub_refl | apply sub_nil_l].
  - intros queued Hq. apply Forall_forall. intros played Hp.
    clear - HS Hq Hp. revert HS Hp.
    generalize (started s). intros l. induction l as [|x l IH]; simpl.
    + intros _ [].
    + intros HS [->|Hp].
      * inversion HS; subst. rewrite Forall_forall in H2. apply H2.
        apply in_or_app. right. now apply in_map.
      * inversion HS; subst. auto.
Qed.

(** X2. Whatever happens after an executed interrupt, no chunk that was
    waiting in the queue when it ran is ever handed to the audio device. *)
Theorem queued_chunks_never_start_after_interrupt
  (parse : string -> option string) (before later : list Event)
  (now : Z) (queued : Int16Array) :
  let s := run parse before initial in
  ws_open s = true ->
  500 <= now - lastInterruptTimeRef s ->
  In queued (audioQueueRef s) ->
  ~ In (ident queued)
       (map ident (started (run parse later (interrupt now s)))).
Proof.
  intros s Hopen Hcool Hq Hin.
  destruct (ordered_run parse before) as [HS HF]. fold s in HS, HF.
  assert (Hfacts : started (interrupt now s) = started s /\
                   audioQueueRef (interrupt now s) = [] /\
                   nextArray (interrupt now s) = nextArray s).
  { rewrite (interrupt_executed now s Hopen Hcool). unfold started; simpl.
    rewrite started_in_app. unfold action_sequence.
    destruct (currentAudioSourceRef s); simpl; now rewrite app_nil_r. }
  destruct Hfacts as (Hst & Hqe & Hne).
  destruct (chunk_step_run parse later (interrupt now s))
    as (pushed & moved & Hi & Hn & Hs & Hsub).
  rewrite Hne in Hi. rewrite Hqe in Hsub. simpl in Hsub.
  rewrite Hs, Hst, map_app in Hin. apply in_app_or in Hin.
  assert (Hlt : (ident queued < nextArray s)%nat).
  { rewrite Forall_forall in HF. apply HF. rewrite map_app.
    apply in_or_app. right. now apply in_map. }
  destruct Hin as [Hin|Hin].
  - (* already started: impossible, the identities increase strictly *)
    rewrite map_app in HS. clear - HS Hin Hq.
    revert HS Hin. generalize (started s). intros l.
    induction l as [|x l IH]; simpl; [tauto|].
    intros HS [Heq|Hin]; inversion HS; subst.
    + rewrite Forall_forall in H2.
      specialize (H2 (ident queued)). rewrite Heq in H2.
      assert (ident queued < ident queued)%nat; [|lia].
      apply H2. apply in_or_app. right. now apply in_map.
    + auto.
  - (* started later: its identity was given after the interrupt *)
    assert (Hin' : In (ident queued) (map ident pushed)).
    { apply (sub_In (map ident moved)); [|exact Hin].
      apply sub_map. apply sub_trans with (moved ++ audioQueueRef
        (run parse later (interrupt now s))); [|exact Hsub].
      rewrite <- (app_nil_r moved) at 1.
      apply sub_app; [apply sub_refl | apply sub_nil_l]. }
    rewrite Hi in Hin'. apply in_seq in Hin'. lia.
Qed.

Lemma queued_chunks_never_start_after_interrupt_witness :
  ~ In 1%nat
      (map ident
         (started
            (run Scenario.no_json
               [SocketMessage (Scenario.audio Scenario.chunkA);
                SourceEnded (Scenario.node 0);
                SocketMessage (Scenario.audio Scenario.chunkB)]
               (interrupt 1000000 Scenario.speaking)))).
Proof.
  apply (queued_chunks_never_start_after_interrupt Scenario.no_json
           (Scenario.connect
            ++ [SocketMessage (Scenario.message "response.created");
                SocketMessage (Scenario.audio Scenario.chunkA);
                SocketMessage (Scenario.audio Scenario.chunkB);
                SocketMessage (Scenario.audio Scenario.chunkC)])
           [SocketMessage (Scenario.audio Scenario.chunkA);
            SourceEnded (Scenario.node 0);
            SocketMessage (Scenario.audio Scenario.chunkB)]
           1000000 {| ident := 1; samples := [2] |}).
  - vm_compute. reflexivity.
  - vm_compute. discriminate.
  - vm_compute. left. reflexivity.
Defined.


(** ** At most one node sounds until an interrupt has been executed *)

Lemma executed_emit (e : Effect) (s : State) :
  executed (emit e s) =
    executed s + count (is_log "Barge-in: Interrupting assistant...") [e].
Proof. unfold executed, emit. destruct s; simpl. apply count_app. Qed.

Lemma executed_interrupt (now : Z) (s : State) :
  (interrupt now s = s) \/ executed (interrupt now s) = executed s + 1.
Proof.
  destruct (ws_open s) eqn:Hopen.
  - destruct (Z_lt_ge_dec (now - lastInterruptTimeRef s) 500) as [H|H].
    + left. apply interrupt_rejected. now right.
    + right. rewrite (interrupt_executed now s Hopen) by lia. trace_count.
  - left. apply interrupt_rejected. now left.
Qed.

Lemma one_loop_iteration ctx s :
  currentAudioSourceRef s = None -> awaiting s = [] -> sounding s = [] ->
  isPlayingRef s = true ->
  one_loop (iteration ctx s).
Proof.
  intros Hc Ha Hs Hp. unfold iteration, one_loop.
  destruct (audioQueueRef s) as [|h t] eqn:Q.
  - destruct s; simpl in *; subst. auto.
  - destruct (Nat.eqb _ 0).
    + destruct s; simpl in *; subst. auto.
    + destruct s; simpl in *; subst.
      split; [reflexivity|]. split; [|discriminate].
      destruct (context_closed _ _); auto.
Qed.

Lemma one_loop_same s s' :
  awaiting s' = awaiting s -> sounding s' = sounding s ->
  currentAudioSourceRef s' = currentAudioSourceRef s ->
  isPlayingRef s' = isPlayingRef s ->
  one_loop s -> one_loop s'.
Proof. unfold one_loop. intros -> -> -> ->. auto. Qed.

Ltac same_loop := eapply one_loop_same; [| | | |eassumption]; reflexivity.

Lemma one_loop_playAudioDelta payload s :
  one_loop s -> one_loop (playAudioDelta payload s).
Proof.
  intros H. unfold playAudioDelta.
  destruct (atob payload) as [bytes|]; [|destruct s; same_loop].
  destruct (Int16Array_of_buffer bytes) as [values|];
    [|destruct s; same_loop].
  destruct (isPlayingRef s) eqn:Hp.
  - destruct s; simpl in *. subst. simpl. same_loop.
  - destruct H as (Ha & Hs & Hc). specialize (Hc Hp).
    rewrite Hc in Ha, Hs. simpl in Ha, Hs.
    assert (Hs' : sounding s = []) by (destruct Hs; assumption).
    destruct s; simpl in *. subst. simpl.
    unfold playAudioQueue; simpl.
    destruct audioContextRef0 as [ctx|].
    + destruct (audioQueueRef0 ++ _) eqn:E.
      * unfold one_loop; simpl; auto.
      * rewrite <- E. apply one_loop_iteration; reflexivity.
    + unfold one_loop; simpl; auto.
Qed.

Lemma without_option_list (n : SourceNode) :
  without n (option_list (Some n)) = [].
Proof. unfold without; simpl. now rewrite SourceNode_eqb_refl. Qed.

Lemma without_option_list' (n : SourceNode) (l : list SourceNode) :
  l = [n] -> without n l = [].
Proof. intros ->. apply (without_option_list n). Qed.

Lemma one_loop_source_onended source s :
  one_loop s -> one_loop (source_onended source s).
Proof.
  intros H. unfold source_onended.
  destruct (existsb _ _) eqn:E; [|exact H].
  destruct H as (Ha & Hs & Hc).
  rewrite Ha in E.
  destruct (currentAudioSourceRef s) as [cur|] eqn:Hcur; [|discriminate].
  simpl in E. rewrite orb_false_r in E. apply SourceNode_eqb_eq in E. subst cur.
  assert (Hp : isPlayingRef s = true).
  { destruct (isPlayingRef s); [reflexivity|]. now specialize (Hc eq_refl). }
  unfold resume.
  assert (Hw : without source (sounding s) = []).
  { destruct Hs as [-> | ->]; [apply without_option_list | reflexivity]. }
  destruct s; simpl in *. subst. rewrite Hw, without_option_list.
  simpl. rewrite SourceNode_eqb_refl. simpl.
  apply one_loop_iteration; reflexivity.
Qed.

Lemma one_loop_initial : one_loop initial.
Proof. unfold one_loop; simpl; auto. Qed.

Lemma executed_iteration ctx s : executed (iteration ctx s) = executed s.
Proof.
  unfold iteration. destruct (audioQueueRef s); [reflexivity|].
  destruct (Nat.eqb _ 0); destruct s; trace_count.
Qed.

Lemma executed_playAudioDelta payload s :
  executed (playAudioDelta payload s) = executed s.
Proof.
  unfold playAudioDelta.
  destruct (atob payload) as [bytes|]; [|destruct s; trace_count].
  destruct (Int16Array_of_buffer bytes); [|destruct s; trace_count].
  destruct (negb _); [|reflexivity].
  unfold playAudioQueue.
  destruct (audioContextRef _); [|reflexivity].
  destruct (audioQueueRef _) eqn:Q; [reflexivity|].
  now rewrite executed_iteration.
Qed.

Lemma executed_source_onended source s :
  executed (source_onended source s) = executed s.
Proof.
  unfold source_onended. destruct (existsb _ _); [|reflexivity].
  unfold resume. rewrite executed_iteration.
  destruct (currentAudioSourceRef _) as [c|];
    [destruct (SourceNode_eqb c source)|]; reflexivity.
Qed.

Lemma executed_handleFunctionCall parse callId name args s :
  executed (handleFunctionCall parse callId name args s) = executed s.
Proof.
  unfold handleFunctionCall, handleFunctionCall_catch, update_messages.
  destruct (parse args);
    [destruct (String.eqb _ _); [|destruct (String.eqb _ _)]|];
    simpl; try solve [destruct s; trace_count];
    destruct (ws_open _); destruct s; trace_count.
Qed.

Lemma one_loop_handleFunctionCall parse callId name args s :
  one_loop s -> one_loop (handleFunctionCall parse callId name args s).
Proof.
  intros H.
  unfold handleFunctionCall, handleFunctionCall_catch, update_messages.
  destruct (parse args);
    [destruct (String.eqb _ _); [|destruct (String.eqb _ _)]|];
    simpl; try solve [destruct s; same_loop];
    destruct (ws_open _); destruct s; same_loop.
Qed.

(** A task never lowers the number of executed action sequences, and a
    task that leaves it unchanged keeps the single loop. *)
Lemma one_loop_step parse e s :
  executed s <= executed (step parse e s) /\
  (one_loop s -> executed (step parse e s) = executed s ->
   one_loop (step parse e s)).
Proof.
  destruct e; simpl.
  - (* ClickConnect *)
    unfold onConnect. destruct (connected s); [|split; [destruct s; trace_count | intros H _; destruct s; same_loop]].
    set (rest := fun s1 : State => set_isAssistantSpeakingRef false
      (set_isAssistantSpeaking false (set_isListening false (set_connected false
        (ws_close (context_close
           match audioStream s1 with
           | Some _ => set_audioStream (Some false) s1
           | None => s1
           end)))))).
    change (executed s <= executed (rest (interrupt now s)) /\
            (one_loop s -> executed (rest (interrupt now s)) = executed s ->
             one_loop (rest (interrupt now s)))).
    assert (Hex : forall s1, executed (rest s1) = executed s1).
    { intros s1. unfold rest, context_close, ws_close.
      destruct s1 as [? ? ? ? ? ? [[]|] [?|] [?|] ? ? ? ? ? ? ? ? ? ? ? ? ? ?];
        trace_count. }
    assert (Hloop : forall s1, one_loop s1 -> one_loop (rest s1)).
    { intros s1 (Ha & Hs & Hc). unfold rest, context_close, ws_close, one_loop.
      destruct s1 as [? ? ? ? ? ? [[]|] [?|] [ctx|] ? ? ? cur ? ? ? ? ? ? ? ? ? ?];
        simpl in *; subst;
        (split; [reflexivity|]; split; [|assumption]);
        try assumption;
        destruct Hs as [-> | ->]; auto;
        destruct cur as [n|]; simpl; auto;
        destruct (negb (Nat.eqb (node_ctx n) ctx)); auto. }
    rewrite Hex.
    destruct (executed_interrupt now s) as [E|E]; rewrite E.
    + split; [lia | intros H _; now apply Hloop].
    + split; [lia | intros _ Heq; lia].
  - (* ClickInterrupt *)
    destruct (connected s && isAssistantSpeaking s);
      [|split; [lia | auto]].
    destruct (executed_interrupt now s) as [E|E]; rewrite E.
    + split; [lia | auto].
    + split; [lia | intros _ Heq; lia].
  - split; [destruct s; trace_count | intros H _; destruct s; same_loop].
  - split; [destruct s; trace_count | intros H _; destruct s; same_loop].
  - split; [destruct s; trace_count | intros H _; destruct s; same_loop].
  - (* message *)
    unfold ws_onmessage.
    repeat match goal with
           | |- context [String.eqb ?a ?b] => destruct (String.eqb a b)
           end; simpl;
      try solve [split; [destruct s; trace_count | intros H _; destruct s; same_loop]].
    + rewrite executed_playAudioDelta.
      split; [destruct s; trace_count|]. intros H _.
      apply one_loop_playAudioDelta. destruct s; same_loop.
    + rewrite executed_handleFunctionCall.
      split; [destruct s; trace_count|]. intros H _.
      apply one_loop_handleFunctionCall. destruct s; same_loop.
  - split; [destruct s; trace_count | intros H _; destruct s; same_loop].
  - split; [destruct s; trace_count | intros H _; destruct s; same_loop].
  - split; [destruct s; trace_count | intros H _; destruct s; same_loop].
  - split; [destruct s; trace_count | intros H _; destruct s; same_loop].
  - (* AudioProcess *)
    unfold onaudioprocess. destruct (ws_open s); [|split; [lia|auto]].
    rewrite executed_emit. simpl (count _ _). rewrite Z.add_0_r.
    assert (Hout : forall s1, one_loop s1 ->
              one_loop (emit (WsSendAudio (btoa (convertToPCM16 inputData))) s1)).
    { intros s1 H. destruct s1; same_loop. }
    unfold detector.
    destruct (isAssistantSpeakingRef s);
      [|split; [destruct s; trace_count | intros H _; apply Hout; destruct s; same_loop]].
    destruct (gtb _ _).
    + destruct (_ <=? _);
        [|split; [destruct s; trace_count | intros H _; apply Hout; destruct s; same_loop]].
      set (s1 := emit _ _).
      assert (E1 : executed s1 = executed s) by (unfold s1; destruct s; trace_count).
      destruct (executed_interrupt now s1) as [E|E]; rewrite E, E1.
      * split; [lia|]. intros H _. apply Hout. unfold s1. destruct s; same_loop.
      * split; [lia | intros _ Heq; lia].
    + destruct (0 <? _);
        (split; [destruct s; trace_count | intros H _; apply Hout;
          solve [assumption | destruct s; same_loop]]).
  - rewrite executed_source_onended. split; [lia|]. intros H _.
    now apply one_loop_source_onended.
  - unfold handleFunctionCall_result, send_function_output.
    destruct (ws_open _);
      (split; [destruct s; trace_count | intros H _; destruct s; same_loop]).
Qed.

Lemma executed_run_mono parse events s :
  executed s <= executed (run parse events s).
Proof.
  revert s. induction events as [|e events IH]; intros s; [simpl; lia|].
  rewrite run_cons. specialize (IH (step parse e s)).
  pose proof (proj1 (one_loop_step parse e s)). lia.
Qed.

Lemma one_loop_run parse events s :
  one_loop s -> executed (run parse events s) = executed s ->
  one_loop (run parse events s).
Proof.
  revert s. induction events as [|e events IH]; intros s H Hex; [exact H|].
  rewrite run_cons in *.
  pose proof (executed_run_mono parse events (step parse e s)) as Hm.
  destruct (one_loop_step parse e s) as [Hle Hstep].
  apply IH; [apply Hstep; [exact H | lia] | lia].
Qed.

(** X3. As long as no interrupt has been executed in the session, at most
    one node sounds, and it is the one in [currentAudioSourceRef]. *)
Theorem one_sound_until_interrupt
  (parse : string -> option string) (events : list Event) :
  let s := run parse events initial in
  executed s = 0 ->
  (List.length (sounding s) <= 1)%nat /\
  (forall n, In n (sounding s) -> currentAudioSourceRef s = Some n).
Proof.
  intros s Hex.
  destruct (one_loop_run parse events initial one_loop_initial Hex)
    as (_ & Hs & _). fold s in Hs.
  destruct Hs as [Hs|Hs]; rewrite Hs;
    destruct (currentAudioSourceRef s); simpl; split; try lia;
    intros n Hn; destruct Hn as [Hn|Hn]; try contradiction;
    congruence.
Qed.

Lemma one_sound_until_interrupt_witness :
  (List.length (sounding Scenario.speaking) <= 1)%nat.
Proof.
  apply (one_sound_until_interrupt Scenario.no_json
           (Scenario.connect
            ++ [SocketMessage (Scenario.message "response.created");
                SocketMessage (Scenario.audio Scenario.chunkA);
                SocketMessage (Scenario.audio Scenario.chunkB);
                SocketMessage (Scenario.audio Scenario.chunkC)])).
  vm_compute. reflexivity.
Defined.


(** ** The cooldown over whole runs *)

Lemma quiet_refl s : quiet s s.
Proof. unfold quiet, ran. repeat split; lia. Qed.

Lemma quiet_trans s s1 s2 : quiet s s1 -> quiet s1 s2 -> quiet s s2.
Proof.
  unfold quiet, ran. intros ((A & B & C) & D) ((A' & B' & C') & D').
  repeat split; lia.
Qed.

Ltac quiet_ :=
  unfold quiet, ran;
  split; [split; [|split]|]; [trace_count | trace_count | trace_count | reflexivity].

Lemma quiet_iteration ctx s : quiet s (iteration ctx s).
Proof.
  unfold iteration. destruct (audioQueueRef s); [destruct s; quiet_|].
  destruct (Nat.eqb _ 0); destruct s; quiet_.
Qed.

Lemma quiet_playAudioDelta payload s : quiet s (playAudioDelta payload s).
Proof.
  unfold playAudioDelta.
  destruct (atob payload) as [bytes|]; [|destruct s; quiet_].
  destruct (Int16Array_of_buffer bytes); [|destruct s; quiet_].
  set (s1 := set_audioQueueRef _ _).
  assert (H1 : quiet s s1) by (unfold s1; destruct s; quiet_).
  destruct (negb _); [|exact H1].
  apply quiet_trans with s1; [exact H1|].
  unfold playAudioQueue.
  destruct (audioContextRef s1); [|destruct s1; quiet_].
  destruct (audioQueueRef s1) eqn:Q; [destruct s1; quiet_|].
  eapply quiet_trans; [|apply quiet_iteration]. destruct s1; quiet_.
Qed.

Lemma quiet_source_onended source s : quiet s (source_onended source s).
Proof.
  unfold source_onended. destruct (existsb _ _); [|apply quiet_refl].
  unfold resume. eapply quiet_trans; [|apply quiet_iteration].
  destruct (currentAudioSourceRef _) as [c|];
    [destruct (SourceNode_eqb c source)|]; destruct s; quiet_.
Qed.

Lemma quiet_handleFunctionCall parse callId name args s :
  quiet s (handleFunctionCall parse callId name args s).
Proof.
  unfold handleFunctionCall, handleFunctionCall_catch, update_messages.
  destruct (parse args);
    [destruct (String.eqb _ _); [|destruct (String.eqb _ _)]|];
    simpl; try solve [destruct s; quiet_];
    destruct (ws_open _); destruct s; quiet_.
Qed.

(** [interrupt] either changes nothing or runs one sequence, in which case
    the socket is open and the cooldown has elapsed. *)
Lemma interrupt_cases now s :
  interrupt now s = s \/
  (ws_open s = true /\ 500 <= now - lastInterruptTimeRef s /\
   ran 1 s (interrupt now s) /\ lastInterruptTimeRef (interrupt now s) = now).
Proof.
  destruct (ws_open s) eqn:Hopen.
  - destruct (Z_lt_ge_dec (now - lastInterruptTimeRef s) 500) as [H|H].
    + left. apply interrupt_rejected. now right.
    + right. split; [reflexivity|]. split; [lia|].
      rewrite (interrupt_executed now s Hopen) by lia.
      unfold ran. repeat split; trace_count.
  - left. apply interrupt_rejected. now left.
Qed.

(** One task runs no action sequence, or exactly one: then its handler read
    the clock at a time [t] at least 500 ms after the last sequence, with
    the socket open, and recorded [t]. *)
Lemma step_cases parse e s :
  quiet s (step parse e s) \/
  exists t, clock e = Some t /\ ws_open s = true /\
            500 <= t - lastInterruptTimeRef s /\
            ran 1 s (step parse e s) /\
            lastInterruptTimeRef (step parse e s) = t.
Proof.
  destruct e; simpl.
  - (* ClickConnect *)
    unfold onConnect. destruct (connected s); [|left; destruct s; quiet_].
    set (rest := fun s1 : State => set_isAssistantSpeakingRef false
      (set_isAssistantSpeaking false (set_isListening false (set_connected false
        (ws_close (context_close
           match audioStream s1 with
           | Some _ => set_audioStream (Some false) s1
           | None => s1
           end)))))).
    change (quiet s (rest (interrupt now s)) \/
            exists t, Some now = Some t /\ ws_open s = true /\
              500 <= t - lastInterruptTimeRef s /\
              ran 1 s (rest (interrupt now s)) /\
              lastInterruptTimeRef (rest (interrupt now s)) = t).
    assert (Hq : forall s1, quiet s1 (rest s1)).
    { intros s1. unfold rest, context_close, ws_close.
      destruct s1 as [? ? ? ? ? ? [[]|] [?|] [?|] ? ? ? ? ? ? ? ? ? ? ? ? ? ?];
        quiet_. }
    destruct (interrupt_cases now s) as [E|(Ho & Hc & Hr & Hl)].
    + left. rewrite E. apply Hq.
    + right. exists now. destruct (Hq (interrupt now s)) as ((A & B & C) & D).
      destruct Hr as (A' & B' & C').
      unfold ran. repeat split; try assumption; try lia; congruence.
  - destruct (connected s && isAssistantSpeaking s); [|left; apply quiet_refl].
    destruct (interrupt_cases now s) as [E|(Ho & Hc & Hr & Hl)].
    + left. rewrite E. apply quiet_refl.
    + right. exists now. auto.
  - left; destruct s; quiet_.
  - left; destruct s; quiet_.
  - left; destruct s; quiet_.
  - left. unfold ws_onmessage.
    repeat match goal with
           | |- context [String.eqb ?a ?b] => destruct (String.eqb a b)
           end; simpl;
      try solve [destruct s; quiet_].
    + eapply quiet_trans; [|apply quiet_playAudioDelta]. destruct s; quiet_.
    + eapply quiet_trans; [|apply quiet_handleFunctionCall]. destruct s; quiet_.
  - left; destruct s; quiet_.
  - left; destruct s; quiet_.
  - left; destruct s; quiet_.
  - left; destruct s; quiet_.
  - (* AudioProcess *)
    unfold onaudioprocess.
    destruct (ws_open s) eqn:Hopen; [|left; apply quiet_refl].
    assert (Hout : forall s1,
              quiet s1 (emit (WsSendAudio (btoa (convertToPCM16 inputData))) s1)).
    { intros s1. destruct s1; quiet_. }
    unfold detector.
    destruct (isAssistantSpeakingRef s);
      [|left; eapply quiet_trans; [|apply Hout]; destruct s; quiet_].
    destruct (gtb _ _).
    + destruct (_ <=? _);
        [|left; eapply quiet_trans; [|apply Hout]; destruct s; quiet_].
      set (s1 := emit (ConsoleLog _) _).
      assert (Q1 : quiet s s1) by (unfold s1; destruct s; quiet_).
      assert (O1 : ws_open s1 = ws_open s) by (unfold s1; destruct s; reflexivity).
      destruct (interrupt_cases now s1) as [E|(Ho & Hc & Hr & Hl)].
      * left. rewrite E. eapply quiet_trans; [exact Q1 | apply Hout].
      * right. exists now.
        destruct Q1 as ((A & B & C) & D). destruct Hr as (A' & B' & C').
        destruct (Hout (interrupt now s1)) as ((A2 & B2 & C2) & D2).
        unfold ran. repeat split; try lia; congruence.
    + left. eapply quiet_trans; [|apply Hout].
      destruct (0 <? _); [destruct s; quiet_ | apply quiet_refl].
  - left. apply quiet_source_onended.
  - left. unfold handleFunctionCall_result, send_function_output.
    destruct (ws_open _); destruct s; quiet_.
Qed.

(** X5. During the 500 ms that follow an executed action sequence (more
    generally, while every clock reading is less than 500 ms after the
    recorded time) no task runs the sequence: no [response.cancel] and no
    [output_audio_buffer.clear] is sent, whatever the events are. *)
Theorem no_sequence_during_cooldown
  (parse : string -> option string) (events : list Event) (s : State) :
  (forall e t, In e events -> clock e = Some t ->
               t - lastInterruptTimeRef s < 500) ->
  let s' := run parse events s in
  executed s' = executed s /\
  sends "response.cancel" s' = sends "response.cancel" s /\
  sends "output_audio_buffer.clear" s'
    = sends "output_audio_buffer.clear" s /\
  lastInterruptTimeRef s' = lastInterruptTimeRef s.
Proof.
  intros Hclock s'. subst s'.
  assert (Q : quiet s (run parse events s)).
  { revert s Hclock. induction events as [|e events IH]; intros s Hclock.
    - apply quiet_refl.
    - rewrite run_cons.
      destruct (step_cases parse e s) as [Hq|(t & Ht & _ & Hc & _)].
      + eapply quiet_trans; [exact Hq|]. apply IH.
        intros e' t' Hin Hck. destruct Hq as (_ & Hl). rewrite Hl.
        apply (Hclock e' t'); [now right | exact Hck].
      + specialize (Hclock e t (or_introl eq_refl) Ht). lia. }
  destruct Q as ((A & B & C) & D). repeat split; lia.
Qed.

Lemma no_sequence_during_cooldown_witness :
  let s := interrupt 1000000 Scenario.speaking in
  sends "response.cancel"
    (run Scenario.no_json
       [ClickInterrupt 1000100;
        SocketMessage (Scenario.message "response.created");
        AudioProcess Scenario.loud 1000200;
        AudioProcess Scenario.loud 1000300] s)
  = sends "response.cancel" s.
Proof.
  intros s.
  destruct (no_sequence_during_cooldown Scenario.no_json
              [ClickInterrupt 1000100;
               SocketMessage (Scenario.message "response.created");
               AudioProcess Scenario.loud 1000200;
               AudioProcess Scenario.loud 1000300] s) as (_ & H & _).
  - intros e t Hin Hclock.
    assert (Hs : lastInterruptTimeRef s = 1000000)
      by (vm_compute; reflexivity).
    rewrite Hs. clear Hs.
    destruct Hin as [<-|[<-|[<-|[<-|[]]]]];
      cbn [clock] in Hclock; try discriminate Hclock;
      injection Hclock as <-; lia.
  - exact H.
Defined.


(** X7. In every run, as many [response.cancel] as
    [output_audio_buffer.clear] messages have been sent, one of each per
    executed action sequence. *)
Theorem cancel_and_clear_are_paired
  (parse : string -> option string) (events : list Event) :
  let s := run parse events initial in
  sends "response.cancel" s = executed s /\
  sends "output_audio_buffer.clear" s = executed s.
Proof.
  intros s.
  assert (H : forall s0, exists n, ran n s0 (run parse events s0)).
  { induction events as [|e events IH]; intros s0.
    - exists 0. unfold ran. simpl. repeat split; lia.
    - rewrite run_cons. destruct (IH (step parse e s0)) as (n & A & B & C).
      destruct (step_cases parse e s0)
        as [((A' & B' & C') & _)|(t & _ & _ & _ & (A' & B' & C') & _)];
        eexists; unfold ran; repeat split;
        [rewrite A, A' | rewrite B, B' | rewrite C, C'
        |rewrite A, A' | rewrite B, B' | rewrite C, C'];
        rewrite <- Z.add_assoc; reflexivity. }
  destruct (H initial) as (n & A & B & C). fold s in A, B, C.
  change (executed initial) with 0 in A.
  change (sends "response.cancel" initial) with 0 in B.
  change (sends "output_audio_buffer.clear" initial) with 0 in C.
  lia.
Qed.

(** X6. A task runs the action sequence at most once, and only when its
    handler reads the clock at least 500 ms after the time recorded by the
    previous sequence, with the socket open; it then records its own
    time. *)
Theorem executed_sequence_respects_cooldown
  (parse : string -> option string) (e : Event) (s : State) :
  executed (step parse e s) <> executed s ->
  exists t, clock e = Some t /\ ws_open s = true /\
            500 <= t - lastInterruptTimeRef s /\
            executed (step parse e s) = executed s + 1 /\
            lastInterruptTimeRef (step parse e s) = t.
Proof.
  intros Hne.
  destruct (step_cases parse e s)
    as [((A & _) & _)|(t & Ht & Ho & Hc & (A & _) & Hl)].
  - lia.
  - exists t. auto.
Qed.

Lemma executed_sequence_respects_cooldown_witness :
  exists t, clock (ClickInterrupt 1000000) = Some t /\
            500 <= t - lastInterruptTimeRef Scenario.speaking.
Proof.
  destruct (executed_sequence_respects_cooldown Scenario.no_json
              (ClickInterrupt 1000000) Scenario.speaking)
    as (t & Ht & _ & Hc & _).
  - vm_compute. discriminate.
  - exists t. split; assumption.
Defined.


(** ** Nothing is sent on a socket that is not open *)

Ltac sends_ := unfold socket_sends; trace_count.

Lemma socket_sends_iteration ctx s :
  socket_sends (iteration ctx s) = socket_sends s.
Proof.
  unfold iteration. destruct (audioQueueRef s); [reflexivity|].
  destruct (Nat.eqb _ 0); destruct s; sends_.
Qed.

Lemma socket_sends_playAudioDelta payload s :
  socket_sends (playAudioDelta payload s) = socket_sends s.
Proof.
  unfold playAudioDelta.
  destruct (atob payload) as [bytes|]; [|destruct s; sends_].
  destruct (Int16Array_of_buffer bytes); [|destruct s; sends_].
  destruct (negb _); [|reflexivity].
  unfold playAudioQueue.
  destruct (audioContextRef _); [|reflexivity].
  destruct (audioQueueRef _) eqn:Q; [reflexivity|].
  now rewrite socket_sends_iteration.
Qed.

Lemma socket_sends_source_onended source s :
  socket_sends (source_onended source s) = socket_sends s.
Proof.
  unfold source_onended. destruct (existsb _ _); [|reflexivity].
  unfold resume. rewrite socket_sends_iteration.
  destruct (currentAudioSourceRef _) as [c|];
    [destruct (SourceNode_eqb c source)|]; reflexivity.
Qed.

(** X8. Apart from the [open] event itself, a task that begins with the
    socket not open sends nothing on it. *)
Theorem nothing_sent_unless_open
  (parse : string -> option string) (e : Event) (s : State) :
  ws_open s = false ->
  e <> SocketOpen ->
  socket_sends (step parse e s) = socket_sends s.
Proof.
  intros Hopen Hne. destruct e; simpl; try congruence.
  - unfold onConnect. destruct (connected s); [|destruct s; sends_].
    rewrite interrupt_rejected by (left; exact Hopen).
    unfold context_close, ws_close.
    destruct s as [? ? ? ? ? ? [[]|] [?|] [?|] ? ? ? ? ? ? ? ? ? ? ? ? ? ?];
      sends_.
  - destruct (connected s && isAssistantSpeaking s); [|reflexivity].
    now rewrite interrupt_rejected by (left; exact Hopen).
  - destruct s; sends_.
  - destruct s; sends_.
  - unfold ws_onmessage.
    repeat match goal with
           | |- context [String.eqb ?a ?b] => destruct (String.eqb a b)
           end; simpl;
      try solve [destruct s; sends_].
    + rewrite socket_sends_playAudioDelta. destruct s; sends_.
    + unfold handleFunctionCall, handleFunctionCall_catch, update_messages.
      destruct (parse _);
        [destruct (String.eqb _ _); [|destruct (String.eqb _ _)]|];
        simpl; try solve [destruct s; sends_];
        unfold ws_open in *; destruct s; simpl in *; rewrite Hopen; sends_.
  - destruct s; sends_.
  - destruct s; sends_.
  - destruct s; sends_.
  - destruct s; sends_.
  - now rewrite onaudioprocess_closed.
  - apply socket_sends_source_onended.
  - unfold handleFunctionCall_result, send_function_output.
    unfold ws_open in *; destruct s; simpl in *; rewrite Hopen; sends_.
Qed.

Lemma nothing_sent_unless_open_witness :
  socket_sends
    (step Scenario.no_json (AudioProcess Scenario.loud 1000000) initial)
  = socket_sends initial.
Proof.
  apply (nothing_sent_unless_open Scenario.no_json
           (AudioProcess Scenario.loud 1000000) initial).
  - reflexivity.
  - discriminate.
Defined.


(** ** [handleFunctionCall] *)

(** X9. With the socket open, every function call is answered: either at
    once, by an error output followed by [response.create] (the arguments do
    not parse, or the name is neither [deep_research] nor [quick_search]),
    or by one call of the research client, whose result is sent as the
    output, followed by [response.create], when it arrives.  The
    researching flag is cleared once the answer is sent. *)
Theorem function_call_is_answered
  (parse : string -> option string) (callId name args result : string)
  (s : State) :
  ws_open s = true ->
  let s1 := handleFunctionCall parse callId name args s in
  (exists message,
     trace s1 = trace s
                ++ [ConsoleError "Function call error:";
                    WsSendFunctionError callId message;
                    WsSend "response.create"] /\
     isResearching s1 = false /\
     (parse args = None
      \/ (name <> "deep_research" /\ name <> "quick_search")))
  \/
  (exists query,
     parse args = Some query /\
     (name = "deep_research"
      /\ trace s1 = trace s ++ [McpDeepResearch callId query]
      \/ name = "quick_search"
         /\ trace s1 = trace s ++ [McpQuickSearch callId query]) /\
     isResearching s1 = true /\
     let s2 := handleFunctionCall_result callId result s1 in
     trace s2 = trace s1
                ++ [WsSendFunctionOutput callId result;
                    WsSend "response.create"] /\
     isResearching s2 = false).
Proof.
  intros Hopen s1. subst s1.
  unfold handleFunctionCall, handleFunctionCall_catch,
    handleFunctionCall_result, send_function_output, update_messages.
  unfold ws_open in *.
  destruct (parse args) as [query|] eqn:P.
  - destruct (String.eqb name "deep_research") eqn:E1.
    + right. exists query. apply String.eqb_eq in E1.
      destruct s; simpl in *. rewrite Hopen. simpl.
      split; [reflexivity|]. split; [left; split; [assumption|reflexivity]|].
      split; [reflexivity|]. split; [now rewrite <- app_assoc | reflexivity].
    + destruct (String.eqb name "quick_search") eqn:E2.
      * right. exists query. apply String.eqb_eq in E2.
        destruct s; simpl in *. rewrite Hopen. simpl.
        split; [reflexivity|].
        split; [right; split; [assumption|reflexivity]|].
        split; [reflexivity|]. split; [now rewrite <- app_assoc | reflexivity].
      * left. eexists. apply String.eqb_neq in E1, E2.
        destruct s; simpl in *. rewrite Hopen. simpl.
        split; [now rewrite <- !app_assoc|]. split; [reflexivity|].
        right. split; assumption.
  - left. eexists. destruct s; simpl in *. rewrite Hopen. simpl.
    split; [now rewrite <- !app_assoc|]. split; [reflexivity|]. now left.
Qed.

Lemma function_call_is_answered_witness :
  isResearching
    (handleFunctionCall Scenario.no_json "call_1" "deep_research" "{"
       Scenario.speaking) = false.
Proof.
  destruct (function_call_is_answered Scenario.no_json "call_1"
              "deep_research" "{" "result" Scenario.speaking)
    as [(message & _ & H & _)|(query & Hq & _)].
  - vm_compute. reflexivity.
  - exact H.
  - discriminate Hq.
Defined.


(** ** [updateMessages] *)

Lemma string_app_assoc (a b c : string) :
  ((a ++ b) ++ c)%string = (a ++ (b ++ c))%string.
Proof. induction a; simpl; congruence. Qed.

Lemma text_app l1 l2 : text (l1 ++ l2) = (text l1 ++ text l2)%string.
Proof.
  induction l1 as [|m l1 IH]; simpl; [reflexivity|].
  rewrite IH. now rewrite string_app_assoc.
Qed.

Lemma string_app_nil_r (a : string) : (a ++ "")%string = a.
Proof. induction a; simpl; congruence. Qed.

Lemma alternating_snoc l a b :
  alternating (l ++ [a]) -> role a <> role b -> alternating (l ++ [a; b]).
Proof.
  induction l as [|x l IH]; simpl; intros H Hne; [auto|].
  destruct l as [|y l]; simpl in *; intuition.
Qed.

Lemma alternating_replace_last l a b :
  alternating (l ++ [a]) -> role b = role a -> alternating (l ++ [b]).
Proof.
  induction l as [|x l IH]; simpl; intros H He; [auto|].
  destruct l as [|y l]; simpl in *.
  - rewrite He. tauto.
  - intuition.
Qed.

Lemma updateMessages_cases role content prev :
  (prev = [] /\ updateMessages role content prev
                = [{| role := role; content := content |}])
  \/ (exists init lastMsg,
        prev = init ++ [lastMsg] /\
        ((Voice.role lastMsg = role /\
          updateMessages role content prev
          = init ++ [{| role := role;
                        content := (Voice.content lastMsg ++ content)%string |}])
         \/ (Voice.role lastMsg <> role /\
             updateMessages role content prev
             = prev ++ [{| role := role; content := content |}]))).
Proof.
  unfold updateMessages. destruct (rev prev) as [|lastMsg l] eqn:E.
  - left. apply (f_equal (@rev _)) in E. rewrite rev_involutive in E.
    subst. auto.
  - right. exists (rev l), lastMsg.
    apply (f_equal (@rev _)) in E. rewrite rev_involutive in E. simpl in E.
    split; [exact E|]. subst prev.
    destruct (String.eqb (Voice.role lastMsg) role) eqn:R.
    + left. apply String.eqb_eq in R. split; [exact R|].
      now rewrite removelast_last.
    + right. apply String.eqb_neq in R. auto.
Qed.

(** X13. [updateMessages] keeps the transcript alternating between roles,
    ends it with a message of the given role, and adds the new text at
    the end of the transcript's text; the transcript grows by one message
    exactly when the last message has another role (or there is none). *)
Theorem updateMessages_merges (role content : string) (prev : list Message) :
  alternating prev ->
  let next := updateMessages role content prev in
  alternating next /\
  option_map Voice.role (last (map Some next) None) = Some role /\
  text next = (text prev ++ content)%string /\
  List.length next
  = match last (map Some prev) None with
    | Some lastMsg =>
        if String.eqb (Voice.role lastMsg) role
        then List.length prev else S (List.length prev)
    | None => 1%nat
    end.
Proof.
  intros Halt next. subst next.
  destruct (updateMessages_cases role content prev)
    as [[-> ->]|(init & lastMsg & -> & [[R ->]|[R ->]])].
  - simpl. rewrite string_app_nil_r. auto.
  - rewrite !map_app. cbn [map]. rewrite !last_last, !text_app, !length_app.
    simpl.
    rewrite !string_app_nil_r, string_app_assoc.
    apply String.eqb_eq in R as R'. rewrite R'.
    repeat split; try reflexivity.
    eapply alternating_replace_last; [exact Halt | simpl; congruence].
  - rewrite !map_app. cbn [map]. rewrite !last_last, !text_app, !length_app.
    simpl.
    rewrite !string_app_nil_r.
    apply String.eqb_neq in R as R'. rewrite R'.
    repeat split; try reflexivity.
    + rewrite <- app_assoc. simpl. now apply alternating_snoc.
    + lia.
Qed.

Lemma updateMessages_merges_witness :
  text (updateMessages "assistant" " there"
          [{| role := "user"; content := "hi" |};
           {| role := "assistant"; content := "hello" |}])
  = "hihello there".
Proof.
  apply (updateMessages_merges "assistant" " there"
           [{| role := "user"; content := "hi" |};
            {| role := "assistant"; content := "hello" |}]).
  simpl. split; [discriminate | exact I].
Defined.


(** ** The byte layout of [convertToPCM16] and the view of [playAudioDelta] *)

Lemma ToInt16_range (x : number) : -32768 <= ToInt16 x <= 32767.
Proof.
  unfold ToInt16. destruct x; try lia.
  pose proof (Z.mod_pos_bound (truncate (S754_finite s m e)) 65536
                ltac:(lia)) as H.
  destruct (32768 <=? _) eqn:E; [apply Z.leb_le in E | apply Z.leb_gt in E];
    lia.
Qed.

Lemma view_setInt16 (v : Z) (rest : list Z) :
  -32768 <= v <= 32767 ->
  Int16Array_of_buffer (setInt16_le v ++ rest)
  = option_map (cons v) (Int16Array_of_buffer rest).
Proof.
  intros Hv. unfold setInt16_le. cbn [app Int16Array_of_buffer].
  f_equal. f_equal. unfold int16_of_bits.
  assert (E : (v mod 65536) mod 256 + 256 * (v mod 65536 / 256)
              = v mod 65536).
  { pose proof (Z.div_mod (v mod 65536) 256 ltac:(lia)). lia. }
  rewrite E.
  destruct (Z_lt_ge_dec v 0) as [Hn|Hp].
  - assert (v mod 65536 = v + 65536).
    { symmetry. apply Z.mod_unique with (-1); lia. }
    destruct (32768 <=? _) eqn:L;
      [apply Z.leb_le in L | apply Z.leb_gt in L]; lia.
  - rewrite Z.mod_small by lia.
    destruct (32768 <=? _) eqn:L;
      [apply Z.leb_le in L | apply Z.leb_gt in L]; lia.
Qed.

(** The bytes that [convertToPCM16] writes (16 bits per sample, low
    byte first) are read back by an [Int16Array] view over them, as in
    [playAudioDelta], as exactly the encoded samples; in particular the
    view never fails on them. *)
Lemma convertToPCM16_view (float32Array : Float32Array) :
  Int16Array_of_buffer (convertToPCM16 float32Array)
  = Some (map encodeSample float32Array).
Proof.
  induction float32Array as [|x rest IH]; [reflexivity|].
  change (convertToPCM16 (x :: rest))
    with (setInt16_le (encodeSample x) ++ convertToPCM16 rest).
  rewrite view_setInt16 by apply ToInt16_range.
  rewrite IH. reflexivity.
Qed.


(** X12. [convertToPCM16] saturates: every sample that is at least 1
    (+Infinity included) is stored as 32767, every sample that is at most
    -1 (-Infinity included) as -32768, and NaN as 0. *)
Theorem encodeSample_saturates (x : number) :
  (SFleb (ofZ 1) x = true -> encodeSample x = 32767) /\
  (SFleb x (ofZ (-1)) = true -> encodeSample x = -32768) /\
  encodeSample NaN = 0.
Proof.
  split; [|split; [|reflexivity]].
  - unfold SFleb. intros H.
    assert (Hc : clamp x = ofZ 1).
    { unfold clamp, math_min.
      destruct (SFcompare (ofZ 1) x) as [[| |]|] eqn:C; try discriminate.
      - apply SFcompare_finite_Eq in C. subst x. reflexivity.
      - destruct x; try discriminate C; reflexivity. }
    unfold encodeSample. rewrite Hc. reflexivity.
  - unfold SFleb. intros H.
    assert (Hc : clamp x = ofZ (-1)).
    { destruct (SFcompare x (ofZ (-1))) as [[| |]|] eqn:C; try discriminate.
      - apply SFcompare_antisym in C. apply SFcompare_finite_Eq in C.
        subst x. reflexivity.
      - destruct x as [sx|sx| |sx mx ex]; try discriminate C.
        + destruct sx; [reflexivity | discriminate C].
        + destruct sx; [|discriminate C].
          apply SFcompare_antisym in C. simpl CompOpp in C.
          assert (M1 : math_min (ofZ 1) (S754_finite true mx ex)
                       = S754_finite true mx ex) by reflexivity.
          unfold clamp. rewrite M1. unfold math_max. rewrite C.
          reflexivity. }
    unfold encodeSample. rewrite Hc. reflexivity.
Qed.

Lemma encodeSample_saturates_witness :
  encodeSample (ofZ 2) = 32767 /\ encodeSample (S754_infinity true) = -32768.
Proof.
  split.
  - apply (encodeSample_saturates (ofZ 2)). reflexivity.
  - apply (encodeSample_saturates (S754_infinity true)). reflexivity.
Defined.


(** ** Payloads that do not decode *)

Lemma list_pair_ind {A} (P : list A -> Prop) :
  P [] -> (forall a, P [a]) ->
  (forall a b l, P l -> P (a :: b :: l)) ->
  forall l, P l.
Proof.
  intros H0 H1 H2.
  fix IH 1. intros [|a [|b l]]; [exact H0 | apply H1 | apply H2, IH].
Qed.

Lemma Int16Array_of_buffer_odd (bytes : list Z) :
  Int16Array_of_buffer bytes = None <-> Nat.odd (List.length bytes) = true.
Proof.
  induction bytes as [|a|a b rest IH] using list_pair_ind.
  - simpl. split; discriminate.
  - simpl. split; reflexivity.
  - cbn [Int16Array_of_buffer List.length].
    change (Nat.odd (S (S (List.length rest))))
      with (Nat.odd (List.length rest)).
    rewrite <- IH.
    destruct (Int16Array_of_buffer rest); simpl; split; congruence.
Qed.

(** X10. A payload that is not base64, or whose decoded length is odd, is
    dropped: the failure is logged and nothing else changes, neither the
    queue nor the playing flag nor any node. *)
Theorem undecodable_chunk_is_dropped (payload : string) (s : State) :
  atob payload = None
  \/ (exists bytes, atob payload = Some bytes
                    /\ Nat.odd (List.length bytes) = true) ->
  playAudioDelta payload s = emit (ConsoleError "Audio playback error:") s.
Proof.
  intros [H|(bytes & H & Hodd)]; unfold playAudioDelta; rewrite H.
  - reflexivity.
  - apply Int16Array_of_buffer_odd in Hodd. now rewrite Hodd.
Qed.

Lemma undecodable_chunk_is_dropped_witness :
  playAudioDelta "AQID" Scenario.speaking
  = emit (ConsoleError "Audio playback error:") Scenario.speaking.
Proof.
  apply (undecodable_chunk_is_dropped "AQID" Scenario.speaking).
  right. exists [1; 2; 3]. split; reflexivity.
Defined.


(** ** Playing a burst of chunks to the end *)

Lemma toFloat32_nonempty (values : list Z) :
  values <> [] -> Nat.eqb (List.length (toFloat32 values)) 0 = false.
Proof.
  intros H. unfold toFloat32. rewrite length_map.
  destruct values; [congruence | reflexivity].
Qed.

Lemma audio_first parse ctx payload values s :
  audioContextRef s = Some ctx -> context_closed ctx s = false ->
  idle s -> decodes payload values ->
  let s' := step parse (SocketMessage (Scenario.audio payload)) s in
  playing ctx (nextSource s) [] s' /\
  started s' = started s ++ [{| ident := nextArray s; samples := values |}] /\
  nextArray s' = S (nextArray s) /\ audioContextRef s' = Some ctx.
Proof.
  intros Hctx Hcl (Hp & Hq & Ha & Hs & Hc) (bytes & Hb & Hv & Hne) s'.
  subst s'.
  change (step parse (SocketMessage (Scenario.audio payload)) s)
    with (playAudioDelta payload (set_isAssistantSpeakingRef true s)).
  unfold playAudioDelta. rewrite Hb, Hv.
  pose proof (toFloat32_nonempty values Hne) as Hlen.
  unfold context_closed in *.
  destruct s; simpl in *; subst. simpl.
  unfold playAudioQueue, iteration; simpl. rewrite Hlen. simpl.
  unfold context_closed; simpl. rewrite Hcl.
  unfold playing, started, context_closed; simpl.
  rewrite started_in_app. simpl. auto 10.
Qed.

Lemma audio_next parse ctx k q payload values s :
  playing ctx k q s -> decodes payload values ->
  let s' := step parse (SocketMessage (Scenario.audio payload)) s in
  playing ctx k (q ++ [{| ident := nextArray s; samples := values |}]) s' /\
  started s' = started s /\ nextArray s' = S (nextArray s) /\
  audioContextRef s' = audioContextRef s.
Proof.
  intros (Hcl & Hp & Hc & Ha & Hs & Hq & Hn) (bytes & Hb & Hv & Hne) s'.
  subst s'.
  change (step parse (SocketMessage (Scenario.audio payload)) s)
    with (playAudioDelta payload (set_isAssistantSpeakingRef true s)).
  unfold playAudioDelta. rewrite Hb, Hv.
  unfold context_closed in *.
  destruct s; simpl in *; subst. simpl.
  unfold playing, context_closed; simpl. auto 10.
Qed.

Lemma ended_events_S ctx k n :
  ended_events ctx k (S n)
  = SourceEnded {| node_id := k; node_ctx := ctx |}
      :: ended_events ctx (S k) n.
Proof. reflexivity. Qed.

(** The [ended] event of the node a loop is suspended on. *)
Lemma source_onended_playing ctx k q s :
  playing ctx k q s ->
  source_onended {| node_id := k; node_ctx := ctx |} s
  = iteration ctx
      (set_currentAudioSourceRef None
         (set_awaiting [] (set_sounding [] s))).
Proof.
  intros (Hcl & Hp & Hc & Ha & Hs & Hq & Hn).
  remember {| node_id := k; node_ctx := ctx |} as n eqn:En.
  unfold source_onended. rewrite Ha, Hs.
  change (existsb (SourceNode_eqb n) [n]) with (SourceNode_eqb n n || false).
  rewrite SourceNode_eqb_refl. cbn [orb].
  rewrite !(without_option_list' n [n]) by reflexivity.
  unfold resume.
  replace (currentAudioSourceRef (set_awaiting [] (set_sounding [] s)))
    with (Some n) by (destruct s; simpl in *; congruence).
  rewrite SourceNode_eqb_refl. subst n. reflexivity.
Qed.

Lemma drain parse ctx q : forall k s,
  playing ctx k q s ->
  Forall (fun c => samples c <> []) q ->
  let s' := run parse (ended_events ctx k (S (List.length q))) s in
  idle s' /\ started s' = started s ++ q /\
  nextArray s' = nextArray s /\ audioContextRef s' = audioContextRef s.
Proof.
  induction q as [|h t IH]; intros k s Hplay Hne s'; subst s'.
  - cbn [List.length]. rewrite ended_events_S, run_cons.
    change (step parse (SourceEnded {| node_id := k; node_ctx := ctx |}) s)
      with (source_onended {| node_id := k; node_ctx := ctx |} s).
    rewrite (source_onended_playing ctx k [] s Hplay).
    unfold ended_events, run; cbn [seq map fold_left].
    destruct Hplay as (Hcl & Hp & Hc & Ha & Hs & Hq & Hn).
    unfold iteration. destruct s; simpl in *; subst. simpl.
    unfold idle; simpl. rewrite app_nil_r. auto 10.
  - inversion Hne as [|? ? Hh Ht]; subst.
    cbn [List.length]. rewrite ended_events_S, run_cons.
    change (step parse (SourceEnded {| node_id := k; node_ctx := ctx |}) s)
      with (source_onended {| node_id := k; node_ctx := ctx |} s).
    rewrite (source_onended_playing ctx k (h :: t) s Hplay).
    set (s1 := iteration ctx _).
    assert (H1 : playing ctx (S k) t s1 /\ started s1 = started s ++ [h] /\
                 nextArray s1 = nextArray s /\
                 audioContextRef s1 = audioContextRef s).
    { unfold s1.
      destruct Hplay as (Hcl & Hp & Hc & Ha & Hs & Hq & Hn).
      pose proof (toFloat32_nonempty (samples h) Hh) as Hlen.
      unfold context_closed in *.
      unfold iteration. destruct s; simpl in *; subst. simpl.
      rewrite Hlen. simpl. unfold context_closed; simpl. rewrite Hcl.
      unfold playing, started, context_closed; simpl.
      rewrite started_in_app. simpl. auto 10. }
    destruct H1 as (P1 & S1 & N1 & C1).
    destruct (IH (S k) s1 P1 Ht) as (I & S2 & N2 & C2).
    rewrite S2, S1, N2, N1, C2, C1, <- app_assoc. auto.
Qed.

Lemma audio_rest parse ctx k rest : forall q s,
  playing ctx k q s ->
  Forall (fun c => decodes (fst c) (snd c)) rest ->
  let s' := run parse (audio_events rest) s in
  playing ctx k (q ++ arrays (nextArray s) rest) s' /\
  started s' = started s /\ audioContextRef s' = audioContextRef s.
Proof.
  induction rest as [|c rest IH]; intros q s Hplay Hdec s'; subst s'.
  - simpl. rewrite app_nil_r. auto.
  - inversion Hdec as [|? ? Hc Hr]; subst.
    unfold audio_events. cbn [map arrays]. rewrite run_cons.
    fold (audio_events rest).
    destruct (audio_next parse ctx k q (fst c) (snd c) s Hplay Hc)
      as (P1 & S1 & N1 & C1).
    destruct (IH _ _ P1 Hr) as (P2 & S2 & C2).
    rewrite N1, <- app_assoc in P2. simpl in P2.
    rewrite S2, S1, C2, C1. auto.
Qed.

Lemma arrays_nonempty first chunks :
  Forall (fun c => decodes (fst c) (snd c)) chunks ->
  Forall (fun a => samples a <> []) (arrays first chunks).
Proof.
  intros H. revert first.
  induction H as [|c rest (b & _ & _ & Hne) _ IH]; intros first; simpl;
    constructor; auto.
Qed.

Lemma arrays_length first chunks :
  List.length (arrays first chunks) = List.length chunks.
Proof.
  revert first. induction chunks; intros; simpl; auto.
Qed.

(** A burst that arrives while the player is at rest. *)
Lemma burst_from_rest
  (parse : string -> option string) (ctx : nat)
  (chunks : list (string * list Z)) (s : State) :
  audioContextRef s = Some ctx ->
  context_closed ctx s = false ->
  idle s ->
  Forall (fun c => decodes (fst c) (snd c)) chunks ->
  let s1 := run parse (audio_events chunks) s in
  let s2 :=
    run parse
      (ended_events ctx (nextSource s) (List.length chunks)) s1 in
  (chunks <> [] ->
   sounding s1 = [{| node_id := nextSource s; node_ctx := ctx |}]) /\
  started s2 = started s ++ arrays (nextArray s) chunks /\
  idle s2.
Proof.
  intros Hctx Hcl Hidle Hdec s1 s2. subst s1 s2.
  destruct chunks as [|c rest].
  - simpl. rewrite app_nil_r. split; [congruence | auto].
  - inversion Hdec as [|? ? Hc Hr]; subst.
    unfold audio_events. cbn [map arrays List.length]. rewrite run_cons.
    fold (audio_events rest).
    destruct (audio_first parse ctx (fst c) (snd c) s Hctx Hcl Hidle Hc)
      as (P1 & S1 & N1 & C1).
    destruct (audio_rest parse ctx (nextSource s) rest [] _ P1 Hr)
      as (P2 & S2 & C2).
    rewrite N1 in P2. simpl in P2.
    split.
    + intros _. destruct P2 as (_ & _ & _ & _ & Hs & _). exact Hs.
    + pose proof (drain parse ctx _ _ _ P2
                    (arrays_nonempty _ _ Hr)) as D.
      rewrite arrays_length in D. cbv zeta in D.
      change (ws_onmessage parse (Scenario.audio (fst c)) s)
        with (step parse (SocketMessage (Scenario.audio (fst c))) s) in *.
      destruct D as (I & S3 & _). rewrite S3, S2, S1, <- app_assoc. auto.
Qed.

(** In a session in which no interrupt has been executed, a state with
    [isPlayingRef] false has no loop left: no node is awaited, none sounds
    and [currentAudioSourceRef] is empty. *)
Lemma no_loop_at_rest (parse : string -> option string)
  (events : list Event) :
  let s := run parse events initial in
  executed s = 0 -> isPlayingRef s = false ->
  awaiting s = [] /\ sounding s = [] /\ currentAudioSourceRef s = None.
Proof.
  intros s Hex Hp.
  destruct (one_loop_run parse events initial one_loop_initial Hex)
    as (Ha & Hs & Hc).
  fold s in Ha, Hs, Hc. specialize (Hc Hp).
  rewrite Hc in Ha, Hs. simpl in Ha, Hs.
  split; [exact Ha|]. split; [|exact Hc].
  destruct Hs; assumption.
Qed.

(** X4. In a session in which no interrupt has been executed, a burst of
    decodable, non-empty chunks that arrives while [isPlayingRef] is false
    and the queue is empty (audio context present and open) is played to
    the end once the [ended] event of each node has arrived: every chunk
    has been started, in arrival order, and the player is back at rest,
    not playing, with an empty queue and no node sounding.  While the
    burst waits, the first chunk alone sounds. *)
Theorem burst_plays_to_the_end
  (parse : string -> option string) (events : list Event) (ctx : nat)
  (chunks : list (string * list Z)) :
  let s := run parse events initial in
  executed s = 0 ->
  audioContextRef s = Some ctx ->
  context_closed ctx s = false ->
  isPlayingRef s = false ->
  audioQueueRef s = [] ->
  Forall (fun c => decodes (fst c) (snd c)) chunks ->
  let s1 := run parse (audio_events chunks) s in
  let s2 :=
    run parse
      (ended_events ctx (nextSource s) (List.length chunks)) s1 in
  (chunks <> [] ->
   sounding s1 = [{| node_id := nextSource s; node_ctx := ctx |}]) /\
  started s2 = started s ++ arrays (nextArray s) chunks /\
  isPlayingRef s2 = false /\ audioQueueRef s2 = [] /\
  sounding s2 = [] /\ currentAudioSourceRef s2 = None.
Proof.
  intros s Hex Hctx Hcl Hp Hq Hdec s1 s2.
  destruct (no_loop_at_rest parse events Hex Hp) as (Ha & Hs & Hc).
  fold s in Ha, Hs, Hc.
  assert (Hidle : idle s) by (unfold idle; auto).
  destruct (burst_from_rest parse ctx chunks s Hctx Hcl Hidle Hdec)
    as (H1 & H2 & (I1 & I2 & _ & I4 & I5)).
  auto 10.
Qed.

Lemma burst_plays_to_the_end_witness :
  let chunks := [(Scenario.chunkA, [1]); (Scenario.chunkB, [2])] in
  let s := Scenario.session [] in
  let s1 := run Scenario.no_json (audio_events chunks) s in
  let s2 := run Scenario.no_json (ended_events 0 0 2) s1 in
  started s2 = [{| ident := 0; samples := [1] |};
                {| ident := 1; samples := [2] |}] /\
  isPlayingRef s2 = false /\ sounding s2 = [].
Proof.
  intros chunks s s1 s2.
  destruct (burst_plays_to_the_end Scenario.no_json
              (Scenario.connect ++ []) 0 chunks)
    as (_ & H & I1 & _ & I3 & _).
  - vm_compute. reflexivity.
  - vm_compute. reflexivity.
  - vm_compute. reflexivity.
  - vm_compute. reflexivity.
  - vm_compute. reflexivity.
  - constructor; [|constructor; [|constructor]].
    + exists [1; 0]. repeat split; (reflexivity || discriminate).
    + exists [2; 0]. repeat split; (reflexivity || discriminate).
  - split; [exact H|]. split; [exact I1 | exact I3].
Defined.


(** ** The voiced-frame count *)

Lemma speechFramesRef_iteration ctx s :
  speechFramesRef (iteration ctx s) = speechFramesRef s.
Proof.
  unfold iteration. destruct (audioQueueRef s); [reflexivity|].
  destruct (Nat.eqb _ 0); reflexivity.
Qed.

Lemma speechFramesRef_interrupt now s :
  0 <= speechFramesRef s -> 0 <= speechFramesRef (interrupt now s).
Proof.
  intros H. destruct (interrupt_cases now s) as [->|(Ho & Hc & _)];
    [exact H|].
  rewrite (interrupt_executed now s Ho Hc). simpl. lia.
Qed.

Lemma speechFramesRef_step parse e s :
  0 <= speechFramesRef s -> 0 <= speechFramesRef (step parse e s).
Proof.
  intros H. destruct e; simpl; try assumption.
  - unfold onConnect. destruct (connected s); [|exact H].
    apply (speechFramesRef_interrupt now) in H. revert H.
    generalize (interrupt now s). intros s1 H.
    unfold context_close, ws_close.
    destruct s1 as [? ? ? ? ? ? [[]|] [?|] [?|] ? ? ? ? ? ? ? ? ? ? ? ? ? ?];
      exact H.
  - destruct (connected s && isAssistantSpeaking s);
      [now apply speechFramesRef_interrupt | exact H].
  - unfold ws_onmessage.
    repeat match goal with
           | |- context [String.eqb ?a ?b] => destruct (String.eqb a b)
           end; simpl; try assumption.
    + unfold playAudioDelta.
      destruct (atob _); [|exact H].
      destruct (Int16Array_of_buffer _); [|exact H].
      destruct (negb _); [|exact H].
      unfold playAudioQueue. simpl.
      destruct (audioContextRef s); [|exact H].
      destruct (audioQueueRef s ++ _); [exact H|].
      rewrite speechFramesRef_iteration. exact H.
    + unfold handleFunctionCall, handleFunctionCall_catch, update_messages.
      destruct (parse _);
        [destruct (String.eqb _ _); [|destruct (String.eqb _ _)]|];
        simpl; try assumption; destruct (ws_open _); exact H.
  - unfold onaudioprocess. destruct (ws_open s); [|exact H].
    simpl. unfold detector.
    destruct (isAssistantSpeakingRef s); [|simpl; lia].
    destruct (gtb _ _).
    + destruct (_ <=? _) eqn:E.
      * apply speechFramesRef_interrupt. simpl. lia.
      * simpl. lia.
    + destruct (0 <? _); simpl; lia.
  - unfold source_onended. destruct (existsb _ _); [|exact H].
    unfold resume. rewrite speechFramesRef_iteration.
    destruct (currentAudioSourceRef _) as [c|];
      [destruct (SourceNode_eqb c source)|]; exact H.
  - unfold handleFunctionCall_result, send_function_output.
    destruct (ws_open _); exact H.
Qed.

(** X14. In every run the voiced-frame count stays at or above 0. *)
Theorem speechFramesRef_never_negative
  (parse : string -> option string) (events : list Event) :
  0 <= speechFramesRef (run parse events initial).
Proof.
  assert (H : forall s, 0 <= speechFramesRef s ->
                        0 <= speechFramesRef (run parse events s)).
  { induction events as [|e events IH]; intros s Hs; [exact Hs|].
    rewrite run_cons. apply IH. now apply speechFramesRef_step. }
  apply H. simpl. lia.
Qed.

(** ** The payload of a microphone frame *)

Lemma list_triple_ind {A} (P : list A -> Prop) :
  P [] -> (forall a, P [a]) -> (forall a b, P [a; b]) ->
  (forall a b c l, P l -> P (a :: b :: c :: l)) ->
  forall l, P l.
Proof.
  intros H0 H1 H2 H3.
  fix IH 1. intros [|a [|b [|c l]]];
    [exact H0 | apply H1 | apply H2 | apply H3, IH].
Qed.

Lemma sextet_char (v : Z) :
  0 <= v < 64 -> sextet_of_char (char_of_sextet v) = Some v.
Proof.
  intros H.
  assert (E : forallb (fun v => match sextet_of_char (char_of_sextet v) with
                                | Some w => w =? v
                                | None => false
                                end) (zrange 64 0) = true) by reflexivity.
  rewrite forallb_forall in E. specialize (E v (in_zrange 64 0 v ltac:(lia))).
  destruct (sextet_of_char (char_of_sextet v)); [|discriminate].
  apply Z.eqb_eq in E. now subst.
Qed.

Lemma alphabet_not_whitespace (c : ascii) (v : Z) :
  sextet_of_char c = Some v -> is_ascii_whitespace c = false.
Proof.
  destruct c as [[] [] [] [] [] [] [] []]; vm_compute; congruence.
Qed.

Lemma alphabet_not_pad (c : ascii) (v : Z) :
  sextet_of_char c = Some v -> Ascii.eqb c pad = false.
Proof.
  destruct c as [[] [] [] [] [] [] [] []]; vm_compute; congruence.
Qed.

Lemma chars_of_bytes_split (bytes : list Z) :
  chars_of_bytes bytes
  = map char_of_sextet (sextets_of_bytes bytes) ++ padding bytes.
Proof.
  induction bytes as [|a|a b|a b c rest IH] using list_triple_ind;
    try reflexivity.
  cbn [chars_of_bytes sextets_of_bytes map app]. rewrite IH.
  do 4 f_equal. unfold padding. cbn [List.length].
  change (S (S (S (List.length rest)))) with (3 + List.length rest)%nat.
  rewrite Nat.Div0.add_mod, Nat.Div0.mod_same, Nat.add_0_l,
    Nat.Div0.mod_mod by lia. reflexivity.
Qed.

Lemma sextets_of_bytes_range (bytes : list Z) :
  Forall byte bytes -> Forall (fun v => 0 <= v < 64) (sextets_of_bytes bytes).
Proof.
  unfold byte.
  induction bytes as [|a|a b|a b c rest IH] using list_triple_ind;
    intros H; cbn [sextets_of_bytes];
    repeat match goal with
           | H : Forall _ (_ :: _) |- _ => inversion H; subst; clear H
           end;
    repeat (constructor; try (Z.div_mod_to_equations; lia)).
  auto.
Qed.

Lemma bytes_of_sextets_of_bytes (bytes : list Z) :
  Forall byte bytes -> bytes_of_sextets (sextets_of_bytes bytes) = bytes.
Proof.
  unfold byte.
  induction bytes as [|a|a b|a b c rest IH] using list_triple_ind;
    intros H; cbn [sextets_of_bytes bytes_of_sextets];
    repeat match goal with
           | H : Forall _ (_ :: _) |- _ => inversion H; subst; clear H
           end.
  - reflexivity.
  - f_equal. Z.div_mod_to_equations; lia.
  - f_equal; [|f_equal]; Z.div_mod_to_equations; lia.
  - rewrite IH by assumption.
    f_equal; [|f_equal; [|f_equal]]; Z.div_mod_to_equations; lia.
Qed.

Lemma sextets_map_char (vs : list Z) :
  Forall (fun v => 0 <= v < 64) vs ->
  sextets (map char_of_sextet vs) = Some vs.
Proof.
  induction 1 as [|v vs Hv _ IH]; [reflexivity|].
  simpl. now rewrite sextet_char, IH.
Qed.

Lemma filter_alphabet (vs : list Z) :
  Forall (fun v => 0 <= v < 64) vs ->
  filter (fun c => negb (is_ascii_whitespace c)) (map char_of_sextet vs)
  = map char_of_sextet vs.
Proof.
  induction 1 as [|v vs Hv _ IH]; [reflexivity|].
  simpl. rewrite (alphabet_not_whitespace _ v (sextet_char v Hv)). simpl.
  now rewrite IH.
Qed.

Lemma sextets_of_bytes_length (bytes : list Z) :
  (List.length (sextets_of_bytes bytes) mod 4
   = match List.length bytes mod 3 with
     | 0 => 0 | 1 => 2 | _ => 3
     end)%nat.
Proof.
  induction bytes as [|a|a b|a b c rest IH] using list_triple_ind;
    try reflexivity.
  cbn [sextets_of_bytes List.length].
  change (S (S (S (S (List.length (sextets_of_bytes rest))))))
    with (4 + List.length (sextets_of_bytes rest))%nat.
  change (S (S (S (List.length rest)))) with (3 + List.length rest)%nat.
  rewrite Nat.Div0.add_mod, Nat.Div0.mod_same, Nat.add_0_l,
    Nat.Div0.mod_mod by lia.
  rewrite (Nat.Div0.add_mod 3), Nat.Div0.mod_same, Nat.add_0_l,
    Nat.Div0.mod_mod by lia.
  exact IH.
Qed.

Lemma mod4_of_nat (n : nat) :
  Z.of_nat n mod 4 = Z.of_nat (n mod 4).
Proof. now rewrite Nat2Z.inj_mod. Qed.

Lemma strip_padding_none (core : list ascii) :
  Forall not_pad core -> strip_padding core = core.
Proof.
  intros H. unfold strip_padding.
  destruct (_ =? 0); [|reflexivity].
  destruct (rev core) as [|p1 [|p2 rest]] eqn:E; try reflexivity.
  assert (Hin : In p1 core).
  { apply in_rev. rewrite E. now left. }
  rewrite Forall_forall in H. now rewrite (H p1 Hin).
Qed.

Lemma strip_padding_two (core : list ascii) :
  (List.length core mod 4 = 2)%nat ->
  strip_padding (core ++ [pad; pad]) = core.
Proof.
  intros H. unfold strip_padding.
  rewrite length_app, mod4_of_nat. cbn [List.length].
  rewrite Nat.Div0.add_mod, H by lia. cbn [Nat.modulo].
  change ((2 + 2 mod 4) mod 4)%nat with 0%nat. cbn [Z.of_nat Z.eqb].
  rewrite rev_app_distr. cbn [rev app].
  change (Ascii.eqb pad pad) with true. cbn [rev app].
  apply rev_involutive.
Qed.

Lemma strip_padding_one (core : list ascii) :
  Forall not_pad core ->
  (List.length core mod 4 = 3)%nat ->
  strip_padding (core ++ [pad]) = core.
Proof.
  intros Hp H. unfold strip_padding.
  rewrite length_app, mod4_of_nat. cbn [List.length].
  rewrite Nat.Div0.add_mod, H by lia.
  change ((3 + 1 mod 4) mod 4)%nat with 0%nat. cbn [Z.of_nat Z.eqb].
  rewrite rev_app_distr. cbn [rev app].
  destruct (rev core) as [|p2 rest] eqn:E.
  - apply (f_equal (@rev _)) in E. rewrite rev_involutive in E. subst.
    discriminate H.
  - change (Ascii.eqb pad pad) with true.
    assert (Hin : In p2 core) by (apply in_rev; rewrite E; now left).
    rewrite Forall_forall in Hp. rewrite (Hp p2 Hin).
    change (rev rest ++ [p2]) with (rev (p2 :: rest)).
    rewrite <- E. apply rev_involutive.
Qed.

(** What [btoa] makes of a byte string, [atob] reads back as the same
    bytes. *)
Lemma atob_btoa (bytes : list Z) :
  Forall byte bytes -> atob (btoa bytes) = Some bytes.
Proof.
  intros Hb. unfold atob, btoa.
  rewrite list_ascii_of_string_of_list_ascii, chars_of_bytes_split.
  pose proof (sextets_of_bytes_range bytes Hb) as Hr.
  set (vs := sextets_of_bytes bytes) in *.
  assert (Hnp : Forall not_pad (map char_of_sextet vs)).
  { apply Forall_forall. intros c Hc. apply in_map_iff in Hc.
    destruct Hc as (v & <- & Hv). rewrite Forall_forall in Hr.
    apply (alphabet_not_pad _ v). apply sextet_char. auto. }
  rewrite filter_app, filter_alphabet by exact Hr.
  assert (Hpad : filter (fun c => negb (is_ascii_whitespace c)) (padding bytes)
                 = padding bytes).
  { unfold padding. destruct (_ mod 3)%nat as [|[|[|?]]]; reflexivity. }
  rewrite Hpad.
  pose proof (sextets_of_bytes_length bytes) as Hlen. fold vs in Hlen.
  assert (Hstrip : strip_padding (map char_of_sextet vs ++ padding bytes)
                   = map char_of_sextet vs /\
                   (List.length (map char_of_sextet vs) mod 4 <> 1)%nat).
  { rewrite length_map. unfold padding.
    pose proof (Nat.mod_upper_bound (List.length bytes) 3 ltac:(lia)) as Hm.
    destruct (List.length bytes mod 3)%nat as [|[|[|?]]]; try lia.
    - rewrite app_nil_r. split; [now apply strip_padding_none | lia].
    - split; [apply strip_padding_two; now rewrite length_map | lia].
    - split; [apply strip_padding_one; [exact Hnp | now rewrite length_map]
             | lia]. }
  destruct Hstrip as [-> Hne].
  rewrite mod4_of_nat.
  destruct (Z.of_nat _ =? 1) eqn:E; [apply Z.eqb_eq in E; lia|].
  rewrite sextets_map_char by exact Hr. simpl.
  unfold vs. now rewrite bytes_of_sextets_of_bytes.
Qed.

Lemma convertToPCM16_bytes (float32Array : Float32Array) :
  Forall byte (convertToPCM16 float32Array).
Proof.
  induction float32Array as [|x rest IH]; [constructor|].
  cbn [convertToPCM16]. unfold setInt16_le. cbn [app].
  pose proof (Z.mod_pos_bound (encodeSample x) 65536 ltac:(lia)).
  constructor; [|constructor; [|exact IH]]; unfold byte;
    Z.div_mod_to_equations; lia.
Qed.

(** X11. The payload that [onaudioprocess] sends for a frame decodes, by
    the steps of [playAudioDelta] ([atob], then an [Int16Array] view over
    the bytes), to exactly the 16-bit samples [convertToPCM16] encoded:
    neither step fails on it. *)
Theorem frame_payload_decodes (inputData : Float32Array) :
  atob (btoa (convertToPCM16 inputData)) = Some (convertToPCM16 inputData) /\
  Int16Array_of_buffer (convertToPCM16 inputData)
  = Some (map encodeSample inputData).
Proof.
  split.
  - apply atob_btoa, convertToPCM16_bytes.
  - apply convertToPCM16_view.
Qed.


Lemma sum_of_zeros (inputData : Float32Array) :
  Forall is_zero inputData ->
  fold_left (fun sum x => add sum (abs x)) inputData (ofZ 0) = ofZ 0.
Proof.
  induction 1 as [|x rest (sx & ->) _ IH]; [reflexivity|].
  simpl. exact IH.
Qed.

(** ** Silent frames *)

(** X16. A frame without samples, or whose samples are all zero, is never
    above the threshold: its level is 0, or NaN when the frame is empty,
    and neither compares above 0.02. *)
Theorem silent_frame_is_not_above (inputData : Float32Array) :
  Forall is_zero inputData -> above inputData = false.
Proof.
  intros H. unfold above, average. rewrite (sum_of_zeros _ H).
  destruct (ofZ (Z.of_nat (List.length inputData))) as [s|s| |s m e];
    try reflexivity.
Qed.

Lemma silent_frame_is_not_above_witness :
  above [S754_zero false; S754_zero true] = false.
Proof.
  apply (silent_frame_is_not_above [S754_zero false; S754_zero true]).
  repeat constructor; eexists; reflexivity.
Defined.


(** ** The Disconnect button *)

(** X15. The Disconnect button ([onConnect] while connected) leaves the page
    disconnected: the three flags of the page and the speaking flag are
    cleared, the socket is no longer open, and the audio context is closed,
    so no node of it sounds.  The queue is emptied, and [response.cancel]
    sent, only through [interrupt]: when the socket was open and at least
    500 ms had passed since the last action sequence; otherwise the queue
    and the playing flag are left as they were. *)
Theorem disconnect_tears_down (now : Z) (s : State) :
  connected s = true ->
  let s' := onConnect now s in
  connected s' = false /\ isListening s' = false /\
  isAssistantSpeaking s' = false /\ isAssistantSpeakingRef s' = false /\
  ws_open s' = false /\ turnState s' = Idle /\
  (forall ctx, audioContextRef s = Some ctx ->
     context_closed ctx s' = true /\
     forall n, In n (sounding s') -> node_ctx n <> ctx) /\
  (ws_open s = true -> 500 <= now - lastInterruptTimeRef s ->
   audioQueueRef s' = [] /\ isPlayingRef s' = false /\
   currentAudioSourceRef s' = None /\
   sends "response.cancel" s' = sends "response.cancel" s + 1) /\
  (ws_open s = false \/ now - lastInterruptTimeRef s < 500 ->
   audioQueueRef s' = audioQueueRef s /\ isPlayingRef s' = isPlayingRef s /\
   sends "response.cancel" s' = sends "response.cancel" s).
Proof.
  intros Hc s'. subst s'. unfold onConnect. rewrite Hc.
  set (s1 := interrupt now s).
  assert (Hctx : audioContextRef s1 = audioContextRef s).
  { unfold s1. destruct (ws_open s) eqn:Ho.
    - destruct (Z_lt_ge_dec (now - lastInterruptTimeRef s) 500).
      + rewrite interrupt_rejected by (now right). reflexivity.
      + now rewrite (interrupt_executed now s Ho) by lia.
    - rewrite interrupt_rejected by (now left). reflexivity. }
  assert (G : forall s1 : State,
    let s' := set_isAssistantSpeakingRef false
      (set_isAssistantSpeaking false (set_isListening false (set_connected false
        (ws_close (context_close
           match audioStream s1 with
           | Some _ => set_audioStream (Some false) s1
           | None => s1
           end))))) in
    connected s' = false /\ isListening s' = false /\
    isAssistantSpeaking s' = false /\ isAssistantSpeakingRef s' = false /\
    ws_open s' = false /\ turnState s' = Idle /\
    (forall ctx, audioContextRef s1 = Some ctx ->
       context_closed ctx s' = true /\
       forall n, In n (sounding s') -> node_ctx n <> ctx) /\
    audioQueueRef s' = audioQueueRef s1 /\ isPlayingRef s' = isPlayingRef s1 /\
    currentAudioSourceRef s' = currentAudioSourceRef s1 /\
    sends "response.cancel" s' = sends "response.cancel" s1).
  { clear. intros s1. unfold context_close, ws_close, turnState, ws_open,
      context_closed.
    destruct s1 as [? ? ? ? ? ? [[]|] [?|] [c|] ? ? ? ? ? ? ? ? ? ? ? ? ? ?];
      simpl;
      do 6 (split; [reflexivity|]);
      (split;
       [intros ctx Hx;
        first [discriminate Hx
              | inversion Hx; subst; split;
                [rewrite Nat.eqb_refl; reflexivity
                | intros n Hn; apply filter_In in Hn; destruct Hn as [_ Hn];
                  apply negb_true_iff in Hn; apply Nat.eqb_neq in Hn;
                  exact Hn]]
       |]);
      do 3 (split; [reflexivity|]); trace_count. }
  specialize (G s1). cbv zeta in G.
  destruct G as (G1 & G2 & G3 & G4 & G5 & G6 & G7 & G8 & G9 & G10 & G11).
  rewrite Hctx in G7.
  repeat (split; [assumption|]).
  split.
  - intros Ho Hcool. rewrite G8, G9, G10, G11. unfold s1.
    rewrite (interrupt_executed now s Ho Hcool). simpl.
    repeat split; trace_count.
  - intros Hrej. rewrite G8, G9, G11. unfold s1.
    rewrite interrupt_rejected by exact Hrej. auto.
Qed.

Lemma disconnect_tears_down_witness :
  let s' := onConnect 1000000 Scenario.speaking in
  connected s' = false /\ sounding s' = [] /\ audioQueueRef s' = [].
Proof.
  intros s'.
  destruct (disconnect_tears_down 1000000 Scenario.speaking)
    as (H1 & _ & _ & _ & _ & _ & _ & H8 & _).
  - vm_compute. reflexivity.
  - split; [exact H1|]. split; [vm_compute; reflexivity|].
    apply H8; vm_compute; [reflexivity | discriminate].
Defined.

